(** * Subtitle translation pipeline: cue codec, batch translator, cache

    A shallow embedding of the translation module of the add-on
    ([lib/translation]: [parseSubtitleContent], [convertCuesToVTT],
    [translateSubtitle]) and of the SRT timestamp helpers of
    [lib/utils.js] ([parseSrtTimestamp], [formatSrtTimestamp]); then of
    two more helpers of [lib/utils.js] ([parseImdbId],
    [retryWithExponentialBackoff]) and of three handlers that call the
    translator ([POST /translate-text], [GET /check-api-keys],
    [GET /:mediaId/:subtitleId]).

    JavaScript strings are sequences of UTF-16 code units; they are
    modelled as lists of code units.  Numbers are IEEE binary64 values
    and are modelled by the primitive floats. *)

From Stdlib Require Import NArith ZArith List Ascii String Lia DecimalPos.
From Stdlib Require PrimFloat SpecFloat FloatOps.
From stdpp Require Import base option list gmap.

(** ** Strings as code-unit sequences *)

Module Str.

Local Open Scope N_scope.

Definition char := N.
Definition str := list char.

(** An ASCII literal as a code-unit sequence. *)
Definition lit (s : string) : str :=
  List.map N_of_ascii (list_ascii_of_string s).

Definition nl : char := 10.

(** [a === b]: comparison of two strings. *)
Fixpoint str_eqb (a b : str) : bool :=
  match a, b with
  | [], [] => true
  | x :: a', y :: b' => N.eqb x y && str_eqb a' b'
  | _, _ => false
  end.

(** A string is truthy when it is not empty. *)
Definition truthy (s : str) : bool :=
  match s with [] => false | _ => true end.

(** [s.startsWith(p)] *)
Fixpoint startsWith (p s : str) : bool :=
  match p, s with
  | [], _ => true
  | x :: p', y :: s' => N.eqb x y && startsWith p' s'
  | _ :: _, [] => false
  end.

(** White space and line terminators of ECMAScript, the code units that
    [trim] strips. *)
Definition is_space (c : char) : bool :=
  (9 <=? c) && (c <=? 13) || N.eqb c 32 || N.eqb c 160 || N.eqb c 5760
  || (8192 <=? c) && (c <=? 8202) || N.eqb c 8232 || N.eqb c 8233
  || N.eqb c 8239 || N.eqb c 8287 || N.eqb c 12288 || N.eqb c 65279.

Fixpoint trimStart (s : str) : str :=
  match s with
  | c :: s' => if is_space c then trimStart s' else s
  | [] => []
  end.

Definition trimEnd (s : str) : str := rev (trimStart (rev s)).

Definition trim (s : str) : str := trimEnd (trimStart s).

(** [s.split(sep)] for a non-empty separator. [skip] counts the code
    units of a separator occurrence still to be passed over; [cur]
    holds the current segment, reversed. *)
Fixpoint split_go (sep s : str) (skip : nat) (cur : str) : list str :=
  match s with
  | [] => [rev cur]
  | c :: s' =>
      match skip with
      | S k => split_go sep s' k cur
      | O =>
          if startsWith sep s
          then rev cur :: split_go sep s' (Nat.pred (length sep)) []
          else split_go sep s' O (c :: cur)
      end
  end.

Definition split (sep s : str) : list str := split_go sep s O [].

(** [parts.join(sep)] *)
Fixpoint join (sep : str) (parts : list str) : str :=
  match parts with
  | [] => []
  | [p] => p
  | p :: rest => p ++ sep ++ join sep rest
  end.

Definition is_digit (c : char) : bool := (48 <=? c) && (c <=? 57).

(** [/^\d+$/] *)
Definition all_digits (s : str) : bool :=
  truthy s && forallb is_digit s.

(** Decimal digits of a natural number, as [String(n)] renders it. *)
Fixpoint uint_digits (u : Decimal.uint) : str :=
  match u with
  | Decimal.Nil => []
  | Decimal.D0 u => 48 :: uint_digits u
  | Decimal.D1 u => 49 :: uint_digits u
  | Decimal.D2 u => 50 :: uint_digits u
  | Decimal.D3 u => 51 :: uint_digits u
  | Decimal.D4 u => 52 :: uint_digits u
  | Decimal.D5 u => 53 :: uint_digits u
  | Decimal.D6 u => 54 :: uint_digits u
  | Decimal.D7 u => 55 :: uint_digits u
  | Decimal.D8 u => 56 :: uint_digits u
  | Decimal.D9 u => 57 :: uint_digits u
  end.

Definition decimal (n : N) : str := uint_digits (N.to_uint n).

(** [s.padStart(width, '0')] *)
Definition padStart0 (width : nat) (s : str) : str :=
  repeat 48 (width - length s)%nat ++ s.

(** [parseInt(s, 10)] on a string of decimal digits. *)
Definition parseInt (s : str) : N :=
  fold_left (fun acc c => 10 * acc + (c - 48)) s 0.

(** *** Fixed-shape regular expressions

    Both timing patterns of the sources are sequences of digit classes
    and literal characters, so a pattern is a list of atoms. *)
Inductive atom := Digit | Chr (c : char).

Definition atom_ok (a : atom) (c : char) : bool :=
  match a with Digit => is_digit c | Chr x => N.eqb x c end.

(** Match a pattern at the head of [s]: the matched text and the rest. *)
Fixpoint match_atoms (p : list atom) (s : str) : option (str * str) :=
  match p, s with
  | [], _ => Some ([], s)
  | a :: p', c :: s' =>
      if atom_ok a c
      then match match_atoms p' s' with
           | Some (m, r) => Some (c :: m, r)
           | None => None
           end
      else None
  | _ :: _, [] => None
  end.

Definition chars (s : string) : list atom := List.map Chr (lit s).

End Str.

Export Str.

Declare Scope str_scope.
Delimit Scope str_scope with str.
Notation "'$' s" := (lit s%string) (at level 1, format "'$' s") : str_scope.
Local Open Scope str_scope.


(** ** Cue model and codec *)

(** A cue as the parser builds it.  [start] and [end_] (the [end] of
    the source) hold the timestamps in the textual form in which the
    template literal of [convertCuesToVTT] renders them. *)
Record cue := Cue { start : str; end_ : str; text : str }.

Definition set_text (t : str) (c : cue) : cue :=
  {| start := start c; end_ := end_ c; text := t |}.

Inductive format := vtt | srt.

(** Outcome of a computation that may throw. *)
Inductive result (A : Type) := Ok (a : A) | Thrown.
Arguments Ok {A} a.
Arguments Thrown {A}.

(** [\d{2}:\d{2}:\d{2}\.\d{3}] and [\d{2}:\d{2}\.\d{3}], the two
    alternatives of a timestamp group, and the arrow between the groups. *)
Definition ts_long : list atom :=
  [Digit; Digit] ++ chars ":" ++ [Digit; Digit] ++ chars ":"
  ++ [Digit; Digit] ++ chars "." ++ [Digit; Digit; Digit].
Definition ts_short : list atom :=
  [Digit; Digit] ++ chars ":" ++ [Digit; Digit] ++ chars "."
  ++ [Digit; Digit; Digit].
Definition arrow : list atom := chars " --> ".

(** One timestamp group at the head of [s]: the first alternative is
    tried before the second. *)
Definition match_ts (alt : list atom) (s : str) : option (str * str) :=
  match_atoms alt s.

Definition match_group2 (s : str) : option str :=
  match match_ts ts_long s with
  | Some (g, _) => Some g
  | None => match match_ts ts_short s with
            | Some (g, _) => Some g
            | None => None
            end
  end.

(** The timing expression anchored at the head of [s], with the first
    group taken from alternative [alt]. *)
Definition timing_with (alt : list atom) (s : str) : option (str * str) :=
  match match_ts alt s with
  | Some (g1, r1) =>
      match match_atoms arrow r1 with
      | Some (_, r2) =>
          match match_group2 r2 with
          | Some g2 => Some (g1, g2)
          | None => None
          end
      | None => None
      end
  | None => None
  end.

Definition timing_at (s : str) : option (str * str) :=
  match timing_with ts_long s with
  | Some m => Some m
  | None => timing_with ts_short s
  end.

(** [line.match(/(..) --> (..)/)]: the leftmost match, groups 1 and 2. *)
Fixpoint timingMatch (line : str) : option (str * str) :=
  match timing_at line with
  | Some m => Some m
  | None => match line with
            | [] => None
            | _ :: rest => timingMatch rest
            end
  end.

Definition push (currentCue : option cue) (cues : list cue) : list cue :=
  match currentCue with
  | Some c => cues ++ [c]
  | None => cues
  end.

(** The [for] loop of the VTT parser over the remaining lines.
    [skip_note] is the inner [while] of a NOTE block: it runs to the
    first blank line, which the loop increment then steps over. *)
Fixpoint parse_lines (lines : list str) (currentCue : option cue)
    (cues : list cue) {struct lines} : list cue :=
  match lines with
  | [] => push currentCue cues
  | raw :: rest =>
      let line := trim raw in
      if negb (truthy line) || str_eqb line $"WEBVTT"
      then parse_lines rest currentCue cues
      else if startsWith $"NOTE" line
      then skip_note rest currentCue cues
      else
        match timingMatch line with
        | Some (g1, g2) =>
            parse_lines rest
              (Some {| start := g1; end_ := g2; text := [] |})
              (push currentCue cues)
        | None =>
            match currentCue with
            | Some c =>
                if negb (all_digits line)
                then parse_lines rest
                       (Some (set_text
                          (text c ++ (if truthy (text c) then [nl] else [])
                           ++ line) c))
                       cues
                else parse_lines rest currentCue cues
            | None => parse_lines rest currentCue cues
            end
        end
  end
with skip_note (lines : list str) (currentCue : option cue)
    (cues : list cue) {struct lines} : list cue :=
  match lines with
  | [] => push currentCue cues
  | raw :: rest =>
      if truthy (trim raw)
      then skip_note rest currentCue cues
      else parse_lines rest currentCue cues
  end.

Section Codec.

(** The SRT parser of the [subtitle] package, an external collaborator:
    it returns cues or throws. *)
Variable parseSRT : str -> result (list cue).

(** [parseSubtitleContent]: a parser exception is caught and turned
    into the empty cue list. *)
Definition parseSubtitleContent (content : str) (fmt : format) : list cue :=
  match fmt with
  | srt => match parseSRT content with
           | Ok cues => cues
           | Thrown => []
           end
  | vtt => parse_lines (split [nl] content) None []
  end.

(** The [forEach] of [convertCuesToVTT], from position [index] on. *)
Fixpoint emit_cues (index : nat) (cues : list cue) (vttContent : str) : str :=
  match cues with
  | [] => vttContent
  | c :: rest =>
      emit_cues (S index) rest
        (vttContent
           ++ (decimal (N.of_nat (index + 1)) ++ [nl])
           ++ (start c ++ $" --> " ++ end_ c ++ [nl])
           ++ (text c ++ [nl; nl]))
  end.

Definition convertCuesToVTT (cues : list cue) : str :=
  emit_cues 0 cues ($"WEBVTT" ++ [nl; nl]).

End Codec.

(** [lines [l1; ..; ln]] is the document with these lines. *)
Definition doc (ls : list str) : str := join [nl] ls.


(** ** Translation cache

    The [node-cache] store created with [stdTTL: 86400]: a key maps to
    a value and the time at which the entry expires.  An expired entry
    is never observable through [get]. *)

Definition stdTTL : N := 86400%N.

Definition cache_store := gmap str (str * N).

Definition store_get (now : N) (key : str) (c : cache_store) : option str :=
  match c !! key with
  | Some (v, expires) => if (expires <? now)%N then None else Some v
  | None => None
  end.

Definition store_set (now : N) (key value : str) (c : cache_store)
    : cache_store :=
  <[key := (value, (now + stdTTL * 1000)%N)]> c.

(** ** The world a translation call runs in *)

Inductive event :=
| ModelRequest (batchIndex : nat) (prompt : str)
| CacheSet (key value : str).

Record world := World {
  cache : cache_store;   (* translationCache *)
  now : N;               (* Date.now(), in milliseconds *)
  trace : list event     (* requests sent and cache writes, oldest first *)
}.

(** Computations that read and write the world and may throw; what
    was done before an exception stays done. *)
Definition M (A : Type) : Type := world -> result A * world.

Definition ret {A} (a : A) : M A := fun w => (Ok a, w).

Definition bind {A B} (m : M A) (k : A -> M B) : M B :=
  fun w => match m w with
           | (Ok a, w') => k a w'
           | (Thrown, w') => (Thrown, w')
           end.

(** [try { body } catch (error) { handler }] *)
Definition try_catch {A} (body : M A) (handler : M A) : M A :=
  fun w => match body w with
           | (Ok a, w') => (Ok a, w')
           | (Thrown, w') => handler w'
           end.

(** A pure step that may throw. *)
Definition lift {A} (r : result A) : M A := fun w => (r, w).

Notation "x <- m ;; k" := (bind m (fun x => k))
  (at level 100, m at next level, right associativity).

(** An effect is recorded in the trace. *)
Definition log (e : event) : M unit :=
  fun w => (Ok tt, {| cache := cache w; now := now w;
                      trace := trace w ++ [e] |}).

(** Time passes while the answers of the model are awaited. *)
Definition elapse (d : N) : M unit :=
  fun w => (Ok tt, {| cache := cache w; now := (now w + d)%N;
                      trace := trace w |}).

(** [translationCache.get(key)] and [translationCache.set(key, value)] *)
Definition cache_get (key : str) : M (option str) :=
  fun w => (Ok (store_get (now w) key (cache w)), w).

Definition cache_set (key value : str) : M unit :=
  fun w => (Ok tt, {| cache := store_set (now w) key value (cache w);
                      now := now w;
                      trace := trace w ++ [CacheSet key value] |}).

(** [Promise.all] over callbacks that were all started: every one of
    them runs, and the whole rejects when one of them does. *)
Fixpoint promise_all {A} (ps : list (M A)) : M (list A) :=
  match ps with
  | [] => ret []
  | p :: rest =>
      fun w =>
        match p w with
        | (r, w1) =>
            match promise_all rest w1 with
            | (Ok rs, w2) =>
                (match r with Ok a => Ok (a :: rs) | Thrown => Thrown end, w2)
            | (Thrown, w2) => (Thrown, w2)
            end
        end
  end.

(** ** The external model *)

(** A candidate of the response body; [content] holds the texts of
    [content.parts] when the candidate has a content. *)
Record candidate := Candidate { content : option (list str) }.

(** What [axios.post] settles to: a rejection (network, authentication
    or HTTP error), or a response whose [data] or [data.candidates] may
    be absent. *)
Inductive response :=
| Rejected
| Resolved (candidates : option (list candidate)).

(** The model as a translation call meets it: the answer to the request
    of each batch, and the time the answers take. *)
Record network := Network {
  respond : nat -> str -> response;
  latency : N
}.

(** The envelope check and [candidates[0].content.parts[0].text]. *)
Definition translatedText_of (r : response) : result str :=
  match r with
  | Rejected => Thrown
  | Resolved None => Thrown
  | Resolved (Some []) => Thrown
  | Resolved (Some (c :: _)) =>
      match content c with
      | None => Thrown
      | Some [] => Thrown
      | Some (t :: _) => Ok t
      end
  end.

(** A well-formed response carrying the text [t]. *)
Definition reply (t : str) : response :=
  Resolved (Some [Candidate (Some [t])]).

(** ** Batch translator *)

Definition languageMap : list (str * str) :=
  [($"en", $"English"); ($"el", $"Greek"); ($"fr", $"French");
   ($"es", $"Spanish"); ($"de", $"German"); ($"it", $"Italian");
   ($"pt", $"Portuguese"); ($"ru", $"Russian"); ($"ja", $"Japanese");
   ($"ko", $"Korean"); ($"zh", $"Chinese"); ($"ar", $"Arabic");
   ($"hi", $"Hindi"); ($"tr", $"Turkish"); ($"nl", $"Dutch");
   ($"sv", $"Swedish"); ($"pl", $"Polish"); ($"da", $"Danish");
   ($"fi", $"Finnish"); ($"no", $"Norwegian"); ($"cs", $"Czech");
   ($"hu", $"Hungarian"); ($"ro", $"Romanian"); ($"bg", $"Bulgarian");
   ($"hr", $"Croatian"); ($"sr", $"Serbian"); ($"sk", $"Slovak");
   ($"sl", $"Slovenian"); ($"uk", $"Ukrainian"); ($"vi", $"Vietnamese");
   ($"th", $"Thai"); ($"id", $"Indonesian"); ($"ms", $"Malay");
   ($"he", $"Hebrew"); ($"fa", $"Persian")].

Fixpoint table_get (key : str) (table : list (str * str)) : option str :=
  match table with
  | [] => None
  | (k, v) :: rest => if str_eqb k key then Some v else table_get key rest
  end.

(** [languageMap] is a plain object: besides its own keys it answers to
    the properties that it inherits from [Object.prototype], with a
    native function, or with the prototype itself for [__proto__].
    [inherited] gives what a template literal renders for each under
    Node. *)
Definition native (name : str) : str :=
  $"function " ++ name ++ $"() { [native code] }".

Definition inherited : list (str * str) :=
  [($"constructor", native $"Object");
   ($"__defineGetter__", native $"__defineGetter__");
   ($"__defineSetter__", native $"__defineSetter__");
   ($"hasOwnProperty", native $"hasOwnProperty");
   ($"__lookupGetter__", native $"__lookupGetter__");
   ($"__lookupSetter__", native $"__lookupSetter__");
   ($"isPrototypeOf", native $"isPrototypeOf");
   ($"propertyIsEnumerable", native $"propertyIsEnumerable");
   ($"toString", native $"toString");
   ($"valueOf", native $"valueOf");
   ($"__proto__", $"[object Object]");
   ($"toLocaleString", native $"toLocaleString")].

(** [languageMap[langCode] || langCode], as the prompt renders it. *)
Definition getLanguageName (langCode : str) : str :=
  match table_get langCode languageMap with
  | Some name => if truthy name then name else langCode
  | None =>
      match table_get langCode inherited with
      | Some rendered => rendered
      | None => langCode
      end
  end.

Definition batchSize : nat := 10.

(** [cues.slice(i, j)] *)
Definition slice {A} (i j : nat) (l : list A) : list A :=
  take (j - i) (drop i l).

(** The partition loop [for (i = 0; i < cues.length; i += batchSize)];
    [fuel] bounds the number of iterations. *)
Fixpoint batch_loop (fuel i : nat) (cues : list cue) : list (list cue) :=
  match fuel with
  | O => []
  | S fuel' =>
      if (i <? length cues)%nat
      then slice i (i + batchSize) cues
             :: batch_loop fuel' (i + batchSize) cues
      else []
  end.

Definition make_batches (cues : list cue) : list (list cue) :=
  batch_loop (length cues) 0 cues.

Definition separator : str := [nl] ++ $"---" ++ [nl].

Definition make_prompt (sourceLang targetLang : str)
    (textsToTranslate : list str) : str :=
  $"Translate the following subtitles from " ++ getLanguageName sourceLang
  ++ $" to " ++ getLanguageName targetLang ++ $". " ++ [nl]
  ++ $"Keep the same meaning and tone. Return ONLY the translations in order, one per line, with no additional text:"
  ++ [nl; nl] ++ join separator textsToTranslate.

(** Lines 224-240: the segments of the model's text that a batch
    resolves to. *)
Definition reconcile (batch : list cue) (translatedText : str) : list str :=
  let textsToTranslate := map text batch in
  let translations := split separator translatedText in
  if negb (length translations =? length batch)%nat
  then
    let simpleSplit :=
      List.filter (fun line => truthy (trim line)) (split [nl] translatedText) in
    if (length batch <=? length simpleSplit)%nat
    then take (length batch) simpleSplit
    else textsToTranslate
  else translations.

(** The callback of [batches.map]: one request to the model, then the
    reading of its answer. *)
Definition translate_batch (net : network) (sourceLang targetLang : str)
    (batch : list cue) (batchIndex : nat) : M (list str) :=
  let textsToTranslate := map text batch in
  let prompt := make_prompt sourceLang targetLang textsToTranslate in
  _ <- log (ModelRequest batchIndex prompt) ;;
  translatedText <- lift (translatedText_of (respond net batchIndex prompt)) ;;
  ret (reconcile batch translatedText).

(** [batches.map(f)] with the index of each batch. *)
Fixpoint map_indexed {A B} (f : A -> nat -> B) (i : nat) (l : list A)
    : list B :=
  match l with
  | [] => []
  | x :: rest => f x i :: map_indexed f (S i) rest
  end.

(** The two nested [forEach] that write the translations back: the
    state is the cue array and [translatedCueIndex]. *)
Definition apply_one (st : list cue * nat) (translation : str)
    : list cue * nat :=
  let (cues, translatedCueIndex) := st in
  if (translatedCueIndex <? length cues)%nat
  then (alter (set_text (trim translation)) translatedCueIndex cues,
        S translatedCueIndex)
  else st.

Definition apply_batches (cues : list cue) (translatedBatches : list (list str))
    : list cue :=
  fst (fold_left (fun st batchTranslations =>
                    fold_left apply_one batchTranslations st)
                 translatedBatches (cues, O)).

Section Translator.

Variable parseSRT : str -> result (list cue).

(** The MD5 digest in hexadecimal, [crypto.createHash('md5')]. *)
Variable md5 : str -> str.

Definition cacheKey_of (content sourceLang targetLang : str) : str :=
  md5 content ++ $"_" ++ sourceLang ++ $"_" ++ targetLang.

Definition detect_format (content : str) : format :=
  if startsWith $"WEBVTT" (trim content) then vtt else srt.

(** The body of the [try] block of [translateSubtitle]. *)
Definition translate_attempt (net : network)
    (content sourceLang targetLang cacheKey : str) : M str :=
  let fmt := detect_format content in
  let cues := parseSubtitleContent parseSRT content fmt in
  if (length cues =? 0)%nat then ret content
  else
    let batches := make_batches cues in
    translatedBatches <-
      promise_all
        (map_indexed (translate_batch net sourceLang targetLang) 0 batches) ;;
    _ <- elapse (latency net) ;;
    let cues' := apply_batches cues translatedBatches in
    let translatedContent := convertCuesToVTT cues' in
    _ <- cache_set cacheKey translatedContent ;;
    ret translatedContent.

Definition translateSubtitle (net : network)
    (content sourceLang targetLang : str) : M str :=
  let cacheKey := cacheKey_of content sourceLang targetLang in
  let guarded :=
    try_catch (translate_attempt net content sourceLang targetLang cacheKey)
              (ret content) in
  cachedTranslation <- cache_get cacheKey ;;
  match cachedTranslation with
  | Some cached => if truthy cached then ret cached else guarded
  | None => guarded
  end.

End Translator.


(** ** SRT timestamps ([lib/utils.js]) *)

Module Timestamp.

Import PrimFloat SpecFloat FloatOps.
Local Open Scope N_scope.

(** A JavaScript number. *)
Definition number := float.

Definition of_N (n : N) : number :=
  SF2Prim (binary_normalize prec emax (Z.of_N n) 0 false).

(** [Math.floor] *)
Definition floor (x : number) : number :=
  match Prim2SF x with
  | S754_finite s m e =>
      if (0 <=? e)%Z then x
      else
        let d := (2 ^ (- e))%Z in
        if s
        then SF2Prim (binary_normalize prec emax
                        (- ((Z.pos m + d - 1) / d))%Z 0 true)
        else SF2Prim (binary_normalize prec emax (Z.pos m / d)%Z 0 false)
  | _ => x
  end.

(** The remainder operator [x % y]: exact, with the sign of [x]. *)
Definition rem (x y : number) : number :=
  match Prim2SF x, Prim2SF y with
  | S754_nan, _ | _, S754_nan => nan
  | S754_infinity _, _ => nan
  | _, S754_zero _ => nan
  | S754_zero _, _ => x
  | _, S754_infinity _ => x
  | S754_finite sx mx ex, S754_finite _ my ey =>
      let e := Z.min ex ey in
      let r := ((Z.pos mx * 2 ^ (ex - e)) mod (Z.pos my * 2 ^ (ey - e)))%Z in
      SF2Prim (binary_normalize prec emax (if sx then - r else r)%Z e sx)
  end.

(** [String(x)] for an integer-valued [x] below [1e21] (above it the
    rendering switches to exponent notation, which no value computed
    from a two-digit timestamp field reaches). *)
Definition number_to_string (x : number) : str :=
  match Prim2SF x with
  | S754_nan => $"NaN"
  | S754_infinity s => (if s then $"-" else []) ++ $"Infinity"
  | S754_zero _ => $"0"
  | S754_finite s m e =>
      (if s then $"-" else [])
      ++ decimal (Z.to_N (if (0 <=? e)%Z then Z.pos m * 2 ^ e
                          else Z.pos m / 2 ^ (- e))%Z)
  end.

Definition formatSrtTimestamp (seconds : number) : str :=
  let hours := floor (seconds / of_N 3600)%float in
  let minutes := floor (rem seconds (of_N 3600) / of_N 60)%float in
  let secs := floor (rem seconds (of_N 60)) in
  let milliseconds := floor (rem seconds (of_N 1) * of_N 1000)%float in
  padStart0 2 (number_to_string hours) ++ $":"
  ++ padStart0 2 (number_to_string minutes) ++ $":"
  ++ padStart0 2 (number_to_string secs) ++ $","
  ++ padStart0 3 (number_to_string milliseconds).

(** [/(\d{2}):(\d{2}):(\d{2}),(\d{3})/] anchored at the head of [s]. *)
Definition srt_at (s : str) : option (str * str * str * str) :=
  match match_atoms [Digit; Digit] s with
  | Some (g1, r1) =>
  match match_atoms (chars ":") r1 with
  | Some (_, r2) =>
  match match_atoms [Digit; Digit] r2 with
  | Some (g2, r3) =>
  match match_atoms (chars ":") r3 with
  | Some (_, r4) =>
  match match_atoms [Digit; Digit] r4 with
  | Some (g3, r5) =>
  match match_atoms (chars ",") r5 with
  | Some (_, r6) =>
  match match_atoms [Digit; Digit; Digit] r6 with
  | Some (g4, _) => Some (g1, g2, g3, g4)
  | None => None end
  | None => None end
  | None => None end
  | None => None end
  | None => None end
  | None => None end
  | None => None end.

(** [timestamp.match(regex)]: the leftmost match. *)
Fixpoint srt_match (s : str) : option (str * str * str * str) :=
  match srt_at s with
  | Some m => Some m
  | None => match s with
            | [] => None
            | _ :: rest => srt_match rest
            end
  end.

Definition parseSrtTimestamp (timestamp : str) : number :=
  match srt_match timestamp with
  | None => of_N 0
  | Some (g1, g2, g3, g4) =>
      let hours := of_N (parseInt g1) in
      let minutes := of_N (parseInt g2) in
      let seconds := of_N (parseInt g3) in
      let milliseconds := of_N (parseInt g4) in
      (hours * of_N 3600 + minutes * of_N 60 + seconds
       + (milliseconds / of_N 1000))%float
  end.

End Timestamp.

(** ** IMDb identifiers ([lib/utils.js]) *)

(** The letter [t] of the pattern under the [i] flag: [t] or [T]. *)
Definition is_t (c : char) : bool := N.eqb c 116 || N.eqb c 84.

(** The longest run of digits at the head of [s]. *)
Fixpoint digit_run (s : str) : str :=
  match s with
  | c :: s' => if is_digit c then c :: digit_run s' else []
  | [] => []
  end.

(** [\d{7,}] at the head of [s]: the quantifier is greedy and nothing
    follows it in the pattern, so the longest run is the match. *)
Definition digits7 (s : str) : option str :=
  let run := digit_run s in
  if (7 <=? length run)%nat then Some run else None.

(** Group 2 of [/^(tt)?(\d{7,})/i] on [id]: the optional group is tried
    first, and left out when the digits do not follow it. *)
Definition imdbRegex (id : str) : option str :=
  match id with
  | c1 :: c2 :: rest =>
      if is_t c1 && is_t c2
      then match digits7 rest with
           | Some digits => Some digits
           | None => digits7 id
           end
      else digits7 id
  | _ => digits7 id
  end.

(** [parseImdbId]: the normalised identifier, or [None] for [null]. *)
Definition parseImdbId (id : str) : option str :=
  match imdbRegex id with
  | Some digits => Some ($"tt" ++ digits)
  | None => None
  end.

(** ** Retrying with exponential backoff ([lib/utils.js]) *)

(** What a call of the operation settles to. *)
Inductive settled (A E : Type) := Fulfilled (a : A) | Failure (error : E).
Arguments Fulfilled {A E} a.
Arguments Failure {A E} error.

(** [Math.pow(2, n)] for a natural number [n]: the power of two, which
    binary64 holds exactly, and [Infinity] from [n = 1024] on. *)
Definition pow2 (n : N) : Timestamp.number := Timestamp.of_N (2 ^ n).

(** The natural numbers below [2 ^ 53] are the ones that binary64
    counts one by one. *)
Definition exact_below : N := (2 ^ 53)%N.

(** [retries++] on a counter that is a number: adding one is exact
    below [2 ^ 53], and leaves [2 ^ 53] as it is. *)
Definition increment (retries : N) : N :=
  if (retries <? exact_below)%N then (retries + 1)%N else retries.

Section Retry.

Context {A E : Type}.

(** The operation is called again and again and may answer differently
    each time: [operation k] is what its call number [k] settles to,
    counting from zero. *)
Variable operation : nat -> settled A E.

(** [maxRetries] is a natural number; [baseDelay] is any number, and a
    delay is computed in binary64 as the source computes it. *)
Variable maxRetries : N.
Variable baseDelay : Timestamp.number.

(** The [while (true)] loop, entered after [calls] calls of the
    operation with the counter at [retries].  The result comes with the
    arguments of the calls of [delay], in order.  [fuel] bounds the
    iterations: [None] says that the loop has not ended within them. *)
Fixpoint retry_loop (fuel calls : nat) (retries : N)
    : option (settled A E * list Timestamp.number) :=
  match fuel with
  | O => None
  | S fuel' =>
      match operation calls with
      | Fulfilled a => Some (Fulfilled a, [])
      | Failure error =>
          let retries := increment retries in
          if (maxRetries <? retries)%N
          then Some (Failure error, [])
          else
            let delayTime := PrimFloat.mul baseDelay (pow2 (retries - 1)) in
            match retry_loop fuel' (S calls) retries with
            | Some (r, delays) => Some (r, delayTime :: delays)
            | None => None
            end
      end
  end.

(** [retryWithExponentialBackoff], run for [fuel] iterations. *)
Definition retryWithExponentialBackoff (fuel : nat)
    : option (settled A E * list Timestamp.number) :=
  retry_loop fuel 0 0.

End Retry.

(** ** The debug endpoint [POST /translate-text] ([routes/debug-routes.js]) *)

(** The fields of [req.body] that the handler reads, each a string or
    absent. *)
Record text_request := TextRequest {
  req_text : option str;
  req_from : option str;
  req_to : option str
}.

(** What the handler answers: status 400, status 200 with the original
    and the translated text and their languages, or status 500. *)
Inductive text_reply :=
| BadRequest
| Translation (original_text original_lang translated_text translated_lang : str)
| ServerError.

(** [value || fallback] *)
Definition or_default (value : option str) (fallback : str) : str :=
  match value with
  | Some v => if truthy v then v else fallback
  | None => fallback
  end.

(** The one-cue document that the handler wraps the text in. *)
Definition text_document (text : str) : str :=
  $"WEBVTT" ++ [nl; nl] ++ $"1" ++ [nl]
  ++ $"00:00:01.000 --> 00:00:10.000" ++ [nl] ++ text.

Section DebugRoute.

Variable parseSRT : str -> result (list cue).
Variable md5 : str -> str.

Definition translate_text (net : network) (req : text_request) : M text_reply :=
  match req_text req with
  | Some text =>
      if negb (truthy text) then ret BadRequest
      else
        let fromLang := or_default (req_from req) $"en" in
        let toLang := or_default (req_to req) $"el" in
        let vttContent := text_document text in
        try_catch
          (translatedVtt <-
             translateSubtitle parseSRT md5 net vttContent fromLang toLang ;;
           let translatedText :=
             trim (join [nl] (drop 4 (split [nl] translatedVtt))) in
           ret (Translation text fromLang translatedText toLang))
          (ret ServerError)
  | None => ret BadRequest
  end.

End DebugRoute.

(** *** The key check [GET /check-api-keys], its part for the model *)

(** The four values of [results.gemini]: valid and working; not valid,
    for an empty result, for an error, or for no key in the
    environment. *)
Inductive key_verdict := KeyWorking | KeyEmptyResult | KeyError | KeyNotSet.

(** The document that the check has translated. *)
Definition test_document : str :=
  $"WEBVTT" ++ [nl; nl] ++ $"1" ++ [nl]
  ++ $"00:00:01.000 --> 00:00:05.000" ++ [nl] ++ $"Hello, this is a test.".

Section KeyCheck.

Variable parseSRT : str -> result (list cue).
Variable md5 : str -> str.

(** [GEMINI_API_KEY] is the variable of the environment, when set. *)
Definition check_gemini_key (GEMINI_API_KEY : option str) (net : network)
    : M key_verdict :=
  if match GEMINI_API_KEY with Some key => truthy key | None => false end
  then
    try_catch
      (testResult <-
         translateSubtitle parseSRT md5 net test_document $"en" $"el" ;;
       if truthy testResult && (0 <? length testResult)%nat
       then ret KeyWorking
       else ret KeyEmptyResult)
      (ret KeyError)
  else ret KeyNotSet.

End KeyCheck.

(** ** The subtitle route [GET /:mediaId/:subtitleId] *)

(** What the handler answers: a body sent with status 200 under a
    content type, or a bare status. *)
Inductive route_reply :=
| Sent (contentType body : str)
| Status (code : N).

Section SubtitleRoute.

Variable parseSRT : str -> result (list cue).
Variable md5 : str -> str.

(** [fs.readFileSync] of [public/dummy.vtt]: its content, or an
    exception. *)
Variable dummy : result str.

(** The branch of the handler for a regular subtitle, which asks the
    subtitle service. *)
Variable regular : str -> str -> M route_reply.

Definition subtitle_route (net : network) (mediaId subtitleId : str)
    : M route_reply :=
  try_catch
    (if startsWith $"translate_" subtitleId
     then
       let parts := split $"_" subtitleId in
       if (length parts <? 2)%nat then ret (Status 400)
       else
         let targetLang := nth 1 parts [] in
         content <- lift dummy ;;
         content <- try_catch
                      (translateSubtitle parseSRT md5 net content $"en" targetLang)
                      (ret content) ;;
         ret (Sent $"text/vtt" content)
     else regular mediaId subtitleId)
    (ret (Status 500)).

End SubtitleRoute.



(** * Vocabulary of the properties

    Predicates and functions in which the properties below are stated:
    what the parser keeps as text, what the encoder writes line by
    line, how a batch is answered, how a call ends; and the concrete
    documents, models and worlds at which they are exercised. *)

(** ** Lines and cues that the VTT codec preserves *)

(** A string is [clean] when [trim] has nothing to strip from it. *)
Definition clean (s : str) : Prop :=
  s = [] \/
  (exists c s', s = c :: s' /\ is_space c = false) /\
  (exists s' c, s = s' ++ [c] /\ is_space c = false).

(** The whole of [s] matches the pattern [p]. *)
Definition full_match (p : list atom) (s : str) : bool :=
  match match_atoms p s with
  | Some (_, []) => true
  | _ => false
  end.

(** A timestamp of the VTT syntax, [HH:MM:SS.mmm] or [MM:SS.mmm]. *)
Definition is_vtt_timestamp (s : str) : bool :=
  full_match ts_long s || full_match ts_short s.

(** What the parser asks of a line to leave it alone as cue text. *)
Definition plain_line (l : str) : bool :=
  truthy l && str_eqb (trim l) l && negb (str_eqb l $"WEBVTT")
  && negb (startsWith $"NOTE" l)
  && match timingMatch l with Some _ => false | None => true end.

(** A line that the parser appends to the text of the current cue. *)
Definition text_line (l : str) : bool := plain_line l && negb (all_digits l).

(** The text of a cue once the line [l] is added to the text [t]. *)
Definition add_line (t l : str) : str :=
  t ++ (if truthy t then [nl] else []) ++ l.

(** A cue that the VTT parser reads back as it was written. *)
Definition cue_ok (c : cue) : bool :=
  is_vtt_timestamp (start c) && is_vtt_timestamp (end_ c)
  && forallb text_line (split [nl] (text c)).

(** ** The encoder, cue by cue and line by line *)

Definition timing_line (c : cue) : str := start c ++ $" --> " ++ end_ c.

(** What [convertCuesToVTT] appends for the cue at position [index]. *)
Definition cue_block (index : nat) (c : cue) : str :=
  (decimal (N.of_nat (index + 1)) ++ [nl])
  ++ (start c ++ $" --> " ++ end_ c ++ [nl])
  ++ (text c ++ [nl; nl]).

(** The encoded document after its header. *)
Fixpoint body (index : nat) (cues : list cue) : str :=
  match cues with
  | [] => []
  | c :: rest => cue_block index c ++ body (S index) rest
  end.

(** The lines of [cue_block] and of [body]. *)
Definition cue_lines (index : nat) (c : cue) : list str :=
  decimal (N.of_nat (index + 1)) :: timing_line c
  :: split [nl] (text c) ++ [[]].

Fixpoint body_lines (index : nat) (cues : list cue) : list str :=
  match cues with
  | [] => []
  | c :: rest => cue_lines index c ++ body_lines (S index) rest
  end.

(** ** Batches and their answers *)

(** The events [evs] appended to the trace of [w]. *)
Definition add_trace (evs : list event) (w : world) : world :=
  {| cache := cache w; now := now w; trace := trace w ++ evs |}.

(** The prompt sent for a batch, and how the model's answer to the
    request of batch [i] reads. *)
Definition batch_prompt (sourceLang targetLang : str) (batch : list cue) : str :=
  make_prompt sourceLang targetLang (map text batch).

Definition batch_answer (net : network) (sourceLang targetLang : str)
    (batch : list cue) (i : nat) : result str :=
  translatedText_of (respond net i (batch_prompt sourceLang targetLang batch)).

(** The requests sent for the batches, the first of index [i0]. *)
Definition requests (sourceLang targetLang : str) (i0 : nat)
    (batches : list (list cue)) : list event :=
  map_indexed (fun b i => ModelRequest i (batch_prompt sourceLang targetLang b))
    i0 batches.

(** All the results, unless one of them is an exception. *)
Fixpoint collect {A} (rs : list (result A)) : result (list A) :=
  match rs with
  | [] => Ok []
  | r :: rest =>
      match collect rest with
      | Ok l => match r with Ok a => Ok (a :: l) | Thrown => Thrown end
      | Thrown => Thrown
      end
  end.

(** What the callback of batch [i] settles to. *)
Definition batch_result (net : network) (sourceLang targetLang : str)
    (batch : list cue) (i : nat) : result (list str) :=
  match batch_answer net sourceLang targetLang batch i with
  | Ok t => Ok (reconcile batch t)
  | Thrown => Thrown
  end.

(** What [Promise.all] settles to for the batches. *)
Definition answers (net : network) (sourceLang targetLang : str) (i0 : nat)
    (batches : list (list cue)) : result (list (list str)) :=
  collect (map_indexed (batch_result net sourceLang targetLang) i0 batches).

(** The cue [c] once [translation] is written back to it. *)
Definition retext (c : cue) (translation : str) : cue :=
  set_text (trim translation) c.

(** ** Worlds and the endings of a call *)

(** The cached document that the lookup step returns, when it does. *)
Definition lookup_hit (key : str) (w : world) : option str :=
  match store_get (now w) key (cache w) with
  | Some cached => if truthy cached then Some cached else None
  | None => None
  end.

(** The world after the model answered within [latency net] and the
    document [document] was stored under [key]. *)
Definition after_write (net : network) (evs : list event) (key document : str)
    (w : world) : world :=
  {| cache := store_set (now w + latency net)%N key document (cache w);
     now := (now w + latency net)%N;
     trace := trace w ++ evs ++ [CacheSet key document] |}.

(** The world [d] milliseconds later. *)
Definition later (d : N) (w : world) : world :=
  {| cache := cache w; now := (now w + d)%N; trace := trace w |}.

(** The four ways a call ends: with the string it returns and the
    world it leaves. *)
Inductive ending (parseSRT : str -> result (list cue)) (md5 : str -> str)
    (net : network) (content src tgt : str) (w : world)
    : str -> world -> Prop :=
| Cached cached :
    lookup_hit (cacheKey_of md5 content src tgt) w = Some cached ->
    ending parseSRT md5 net content src tgt w cached w
| NoCues :
    lookup_hit (cacheKey_of md5 content src tgt) w = None ->
    parseSubtitleContent parseSRT content (detect_format content) = [] ->
    ending parseSRT md5 net content src tgt w content w
| Failed :
    lookup_hit (cacheKey_of md5 content src tgt) w = None ->
    parseSubtitleContent parseSRT content (detect_format content) <> [] ->
    answers net src tgt 0
      (make_batches (parseSubtitleContent parseSRT content (detect_format content)))
      = Thrown ->
    ending parseSRT md5 net content src tgt w content
      (add_trace
         (requests src tgt 0
            (make_batches
               (parseSubtitleContent parseSRT content (detect_format content))))
         w)
| Translated tbs :
    lookup_hit (cacheKey_of md5 content src tgt) w = None ->
    parseSubtitleContent parseSRT content (detect_format content) <> [] ->
    answers net src tgt 0
      (make_batches (parseSubtitleContent parseSRT content (detect_format content)))
      = Ok tbs ->
    ending parseSRT md5 net content src tgt w
      (convertCuesToVTT
         (apply_batches
            (parseSubtitleContent parseSRT content (detect_format content)) tbs))
      (after_write net
         (requests src tgt 0
            (make_batches
               (parseSubtitleContent parseSRT content (detect_format content))))
         (cacheKey_of md5 content src tgt)
         (convertCuesToVTT
            (apply_batches
               (parseSubtitleContent parseSRT content (detect_format content))
               tbs))
         w).

(** ** Concrete documents, models and worlds *)

Definition hello_vtt : str :=
  doc [$"WEBVTT"; $""; $"1"; $"00:00:01.000 --> 00:00:05.000"; $"Hello"].

Definition hello_cue : cue :=
  {| start := $"00:00:01.000"; end_ := $"00:00:05.000"; text := $"Hello" |}.

Definition two_vtt : str :=
  doc [$"WEBVTT"; $"";
       $"1"; $"00:00:01.000 --> 00:00:05.000"; $"Hello"; $"";
       $"2"; $"00:00:06.000 --> 00:00:09.000"; $"World"].

Definition no_timing_vtt : str := doc [$"WEBVTT"; $""; $"Hello"].

Definition cue42 : cue :=
  {| start := $"00:00:01.000"; end_ := $"00:00:05.000"; text := $"42" |}.

(** A fresh process: empty cache, clock at zero, nothing done yet. *)
Definition w0 : world := {| cache := ∅; now := 0%N; trace := [] |}.

(** An SRT document of one cue. *)
Definition srt_hi : str :=
  doc [$"1"; $"00:00:01,000 --> 00:00:02,000"; $"Hi"].

(** Stand-ins for the collaborators: two SRT parsers and a digest.
    [no_srt] throws.  [one_cue_srt] is [parse] of the [subtitle] package
    in its versions 2 and 3, the versions with the synchronous [parse]
    that the module calls, at the document [srt_hi]: it returns one cue
    whose [start] and [end] are the numbers of milliseconds 1000 and
    2000, which the template literal of [convertCuesToVTT] renders as
    [1000] and [2000].  At any other document it stands for nothing and
    throws. *)
Definition no_srt : str -> result (list cue) := fun _ => Thrown.

Definition one_cue_srt : str -> result (list cue) :=
  fun content =>
    if str_eqb content srt_hi
    then Ok [{| start := $"1000"; end_ := $"2000"; text := $"Hi" |}]
    else Thrown.

Definition digest : str -> str := fun s => decimal (N.of_nat (length s)).

(** Models: one that answers every request with the same text, and one
    that rejects every request. *)
Definition says (t : str) : network :=
  {| respond := fun _ _ => reply t; latency := 250%N |}.

Definition down : network :=
  {| respond := fun _ _ => Rejected; latency := 250%N |}.

(** Eleven cues, two batches. *)
Definition eleven_cues : list cue :=
  map (fun k => {| start := $"00:00:" ++ padStart0 2 (decimal (N.of_nat k)) ++ $".000";
                   end_ := $"00:00:" ++ padStart0 2 (decimal (N.of_nat k)) ++ $".500";
                   text := $"line " ++ decimal (N.of_nat k) |})
      (seq 1 11).

Definition eleven_vtt : str := convertCuesToVTT eleven_cues.

(** The first batch is answered with ten segments, the request of the
    second batch is rejected. *)
Definition second_batch_down : network :=
  {| respond := fun i _ =>
       match i with
       | O => reply (join separator
                       (map (fun k => $"T" ++ decimal (N.of_nat k)) (seq 1 10)))
       | S _ => Rejected
       end;
     latency := 250%N |}.

(** The document of C3 as the claim words it: the cues of a batch whose
    call failed keep their text, the cues of every other batch receive
    the segments their batch resolved to. *)
Definition batch_local_cues (net : network) (sourceLang targetLang : str)
    (cues : list cue) : list cue :=
  concat
    (map_indexed
       (fun b i =>
          match batch_result net sourceLang targetLang b i with
          | Ok tb => zip_with retext b tb
          | Thrown => b
          end)
       0 (make_batches cues)).

(** ** Decoded cues, traces, delays *)

(** A cue as the VTT parser builds it: both timestamps have the VTT
    syntax, and the text is empty or made of lines that the parser
    takes as text. *)
Definition decoded_cue (c : cue) : bool :=
  is_vtt_timestamp (start c) && is_vtt_timestamp (end_ c)
  && (negb (truthy (text c)) || forallb text_line (split [nl] (text c))).

(** The line holds a timing, wherever it stands in the line. *)
Definition has_timing (line : str) : bool :=
  match timingMatch line with Some _ => true | None => false end.

(** The lines of [content] as the parser looks at them. *)
Definition trimmed_lines (content : str) : list str :=
  map trim (split [nl] content).

(** The event is a request to the model. *)
Definition is_request (e : event) : bool :=
  match e with ModelRequest _ _ => true | CacheSet _ _ => false end.

(** The delays before the retries [from + 1], [from + 2], ..:
    [baseDelay] times two to the [from], to the [from + 1], .., each
    product taken in binary64. *)
Fixpoint backoff (baseDelay : Timestamp.number) (from count : nat)
    : list Timestamp.number :=
  match count with
  | O => []
  | S count' =>
      PrimFloat.mul baseDelay (pow2 (N.of_nat from))
      :: backoff baseDelay (S from) count'
  end.


(** The cue of [text_document]. *)
Definition text_cue (text : str) : cue :=
  {| start := $"00:00:01.000"; end_ := $"00:00:10.000"; text := text |}.

(** An answer of two segments, an answer of one segment that holds a
    timing line, an operation that succeeds at its third call, and one
    that never does. *)
Definition hola_mundo : str := $"Hola" ++ separator ++ $"Mundo".


Definition flaky : nat -> settled str str :=
  fun k => if (k <? 2)%nat then Failure $"timeout" else Fulfilled $"done".

Definition broken : nat -> settled str str :=
  fun k => Failure ($"timeout " ++ decimal (N.of_nat k)).


(** * Properties *)

#[local] Arguments N.eqb : simpl never.
#[local] Arguments N.leb : simpl never.
#[local] Arguments lit : simpl never.
#[local] Arguments chars : simpl never.

(** Replace the string literals of the goal by their code units. *)
Ltac eval_lits :=
  repeat match goal with
  | |- context [lit ?s] =>
      let v := eval vm_compute in (lit s) in change (lit s) with v
  | |- context [chars ?s] =>
      let v := eval vm_compute in (chars s) in change (chars s) with v
  end.

(** ** Strings *)

Lemma str_eqb_eq (a b : str) : str_eqb a b = true <-> a = b.
Proof.
  revert b; induction a as [|x a IH]; intros [|y b]; simpl; try easy.
  rewrite andb_true_iff, N.eqb_eq, IH. split.
  - intros [-> ->]; reflexivity.
  - intros [= -> ->]; split; reflexivity.
Qed.

Lemma str_eqb_refl (a : str) : str_eqb a a = true.
Proof. apply str_eqb_eq; reflexivity. Qed.

Lemma truthy_app_l (a b : str) : truthy a = true -> truthy (a ++ b) = true.
Proof. destruct a; easy. Qed.

Lemma is_digit_not_space (c : char) : is_digit c = true -> is_space c = false.
Proof.
  unfold is_digit, is_space. intros H.
  apply andb_true_iff in H as [H1 H2].
  apply N.leb_le in H1, H2.
  repeat match goal with
  | |- context [N.eqb c ?k] =>
      let E := fresh in destruct (N.eqb_spec c k) as [E|E]; [lia|]; clear E
  | |- context [N.leb ?a ?b] =>
      let E := fresh in destruct (N.leb_spec a b) as [E|E]; try lia; clear E
  end; reflexivity.
Qed.

Lemma trimStart_keeps_last (l : str) (c : char) :
  is_space c = false -> exists x, trimStart (l ++ [c]) = x ++ [c].
Proof.
  intros Hc. induction l as [|a l IH]; simpl.
  - rewrite Hc. exists []; reflexivity.
  - destruct (is_space a); [exact IH|]. exists (a :: l); reflexivity.
Qed.

Lemma trimStart_nil_or_head (s : str) :
  trimStart s = [] \/ exists c s', trimStart s = c :: s' /\ is_space c = false.
Proof.
  induction s as [|a s IH]; simpl; [left; reflexivity|].
  destruct (is_space a) eqn:E; [exact IH|]. right; eauto.
Qed.

Lemma trim_clean (s : str) : clean (trim s).
Proof.
  unfold trim, trimEnd.
  destruct (trimStart_nil_or_head s) as [->|(c & s' & -> & Hc)].
  - left; reflexivity.
  - right. simpl rev.
    destruct (trimStart_keeps_last (rev s') c Hc) as [x Hx].
    rewrite Hx, rev_app_distr. simpl. split.
    + eauto.
    + destruct (trimStart_nil_or_head (rev s' ++ [c])) as [E|(d & t & E & Hd)].
      * rewrite E in Hx. destruct x; discriminate.
      * rewrite E in Hx. destruct x as [|e x]; simpl in Hx.
        -- exists [], c. split; [reflexivity|exact Hc].
        -- injection Hx as <- _. exists (c :: rev x), d.
           split; [reflexivity|exact Hd].
Qed.

Lemma clean_trim (s : str) : clean s -> trim s = s.
Proof.
  intros [->|[(c & s' & -> & Hc) (t & d & E & Hd)]]; [reflexivity|].
  unfold trim, trimEnd. simpl trimStart at 2. rewrite Hc.
  rewrite E, rev_app_distr. simpl. rewrite Hd. simpl.
  rewrite rev_involutive. reflexivity.
Qed.

Lemma trim_idemp (s : str) : trim (trim s) = trim s.
Proof. apply clean_trim, trim_clean. Qed.

Lemma clean_edges (c d : char) (m : str) :
  is_space c = false -> is_space d = false -> clean (c :: m ++ [d]).
Proof.
  intros Hc Hd. right. split; [eauto|]. exists (c :: m), d. split; easy.
Qed.

Lemma clean_app (a m b : str) :
  clean a -> a <> [] -> clean b -> b <> [] -> clean (a ++ m ++ b).
Proof.
  intros [->|[(c & a' & -> & Hc) _]] Ha; [easy|].
  intros [->|[_ (b' & d & -> & Hd)]] Hb; [easy|].
  right. split; [simpl; eauto|].
  exists ((c :: a') ++ m ++ b'), d. split; [|exact Hd].
  rewrite <- !app_assoc. reflexivity.
Qed.

Lemma clean_digits (s : str) : forallb is_digit s = true -> clean s.
Proof.
  intros H. destruct s as [|c s]; [left; reflexivity|]. right.
  assert (Hall : forall x, In x (c :: s) -> is_space x = false).
  { intros x Hx. apply is_digit_not_space.
    rewrite forallb_forall in H. apply H, Hx. }
  split.
  - exists c, s. split; [reflexivity|]. apply Hall. left; reflexivity.
  - destruct (exists_last (l := c :: s)) as (t & d & E); [easy|].
    exists t, d. split; [exact E|]. apply Hall. rewrite E.
    apply in_or_app. right. left; reflexivity.
Qed.

(** *** Splitting on the newline *)

Lemma split_nl_step (c : char) (s cur : str) :
  split_go [nl] (c :: s) O cur =
  if N.eqb nl c then rev cur :: split_go [nl] s O []
  else split_go [nl] s O (c :: cur).
Proof.
  change (split_go [nl] (c :: s) O cur) with
    (if N.eqb nl c && true then rev cur :: split_go [nl] s O []
     else split_go [nl] s O (c :: cur)).
  rewrite andb_true_r. reflexivity.
Qed.

Lemma split_go_nl_app (a b cur : str) :
  split_go [nl] (a ++ nl :: b) O cur
  = split_go [nl] a O cur ++ split [nl] b.
Proof.
  revert cur. induction a as [|c a IH]; intros cur.
  - reflexivity.
  - rewrite <- app_comm_cons, !split_nl_step.
    destruct (N.eqb nl c); rewrite IH; reflexivity.
Qed.

Lemma split_nl_app (a b : str) :
  split [nl] (a ++ nl :: b) = split [nl] a ++ split [nl] b.
Proof. apply split_go_nl_app. Qed.

Lemma split_go_nl_free (a cur : str) :
  ~ In nl a -> split_go [nl] a O cur = [rev cur ++ a].
Proof.
  revert cur. induction a as [|c a IH]; intros cur Hn.
  - simpl. rewrite app_nil_r. reflexivity.
  - rewrite split_nl_step. destruct (N.eqb_spec nl c) as [E|Hc].
    + exfalso. apply Hn. left; symmetry; exact E.
    + rewrite IH by (intros Hin; apply Hn; right; exact Hin).
      simpl. rewrite <- app_assoc. reflexivity.
Qed.

Lemma split_nl_free (a : str) : ~ In nl a -> split [nl] a = [a].
Proof. intros H. unfold split. rewrite split_go_nl_free by exact H. reflexivity. Qed.

Lemma split_go_nl_lines (s cur : str) :
  ~ In nl cur -> Forall (fun l => ~ In nl l) (split_go [nl] s O cur).
Proof.
  revert cur. induction s as [|c s IH]; intros cur Hc.
  - constructor; [|constructor]. rewrite <- in_rev. exact Hc.
  - rewrite split_nl_step. destruct (N.eqb_spec nl c) as [E|Hn].
    + constructor; [rewrite <- in_rev; exact Hc|]. apply IH. easy.
    + apply IH. intros [E|E]; [congruence|easy].
Qed.

Lemma split_nl_lines (s : str) :
  Forall (fun l => ~ In nl l) (split [nl] s).
Proof. apply split_go_nl_lines. easy. Qed.

Lemma join_split_go_nl (s cur : str) :
  join [nl] (split_go [nl] s O cur) = rev cur ++ s.
Proof.
  revert cur. induction s as [|c s IH]; intros cur.
  - simpl. rewrite app_nil_r. reflexivity.
  - rewrite split_nl_step. destruct (N.eqb_spec nl c) as [E|Hc].
    + rewrite <- E. specialize (IH []). simpl in IH.
      destruct (split_go [nl] s O []) as [|p ps] eqn:E'.
      * destruct s as [|c' s]; [discriminate|].
        rewrite split_nl_step in E'. destruct (N.eqb nl c'); [discriminate|].
        exfalso. revert E'. generalize [c']. clear.
        induction s as [|c s IH]; intros cur; [discriminate|].
        rewrite split_nl_step. destruct (N.eqb nl c); [discriminate|apply IH].
      * change (join [nl] (rev cur :: p :: ps))
          with (rev cur ++ [nl] ++ join [nl] (p :: ps)).
        rewrite IH. reflexivity.
    + rewrite IH. simpl. rewrite <- app_assoc. reflexivity.
Qed.

Lemma join_split_nl (s : str) : join [nl] (split [nl] s) = s.
Proof. apply join_split_go_nl. Qed.

(** *** Fixed-shape patterns *)

Lemma match_atoms_split (p : list atom) (s m r : str) :
  match_atoms p s = Some (m, r) -> s = m ++ r /\ Forall2 (fun a c => atom_ok a c = true) p m.
Proof.
  revert s m r. induction p as [|a p IH]; intros s m r; simpl.
  - intros [= <- <-]. split; [reflexivity|constructor].
  - destruct s as [|c s]; [discriminate|].
    destruct (atom_ok a c) eqn:Ha; [|discriminate].
    destruct (match_atoms p s) as [[m' r']|] eqn:E; [|discriminate].
    intros [= <- <-]. destruct (IH _ _ _ E) as [-> HF].
    split; [reflexivity|]. constructor; assumption.
Qed.

Lemma match_atoms_forall2 (p : list atom) (m r : str) :
  Forall2 (fun a c => atom_ok a c = true) p m ->
  match_atoms p (m ++ r) = Some (m, r).
Proof.
  induction 1 as [|a c p m Ha _ IH]; simpl; [reflexivity|].
  rewrite Ha, IH. reflexivity.
Qed.

Lemma full_match_forall2 (p : list atom) (s : str) :
  full_match p s = true <-> Forall2 (fun a c => atom_ok a c = true) p s.
Proof.
  unfold full_match. split.
  - destruct (match_atoms p s) as [[m [|? ?]]|] eqn:E; try discriminate.
    intros _. apply match_atoms_split in E as [-> HF].
    rewrite app_nil_r. exact HF.
  - intros HF. rewrite <- (app_nil_r s), (match_atoms_forall2 _ _ _ HF).
    reflexivity.
Qed.

Lemma full_match_extend (p : list atom) (s x : str) :
  full_match p s = true -> match_atoms p (s ++ x) = Some (s, x).
Proof. intros H. apply match_atoms_forall2, full_match_forall2, H. Qed.

Lemma digits_no_colon (p : list atom) (s : str) :
  forallb is_digit s = true ->
  match_atoms (Digit :: Digit :: Chr 58%N :: p) s = None.
Proof.
  intros H. destruct s as [|c0 [|c1 [|c2 s]]]; simpl in *;
    repeat match goal with
    | |- context [is_digit ?c] => destruct (is_digit c) eqn:?; simpl in *
    end; try reflexivity; try discriminate.
  destruct (N.eqb_spec 58%N c2) as [<-|]; [|reflexivity].
  apply andb_true_iff in H as [H _]. vm_compute in H. discriminate.
Qed.

Lemma timing_at_digits (s : str) :
  forallb is_digit s = true -> timing_at s = None.
Proof.
  intros H. unfold timing_at, timing_with, match_ts.
  change ts_long with (Digit :: Digit :: Chr 58%N :: tail (tail (tail ts_long))).
  change ts_short with (Digit :: Digit :: Chr 58%N :: tail (tail (tail ts_short))).
  rewrite !digits_no_colon by exact H. reflexivity.
Qed.

Lemma timingMatch_digits (s : str) :
  forallb is_digit s = true -> timingMatch s = None.
Proof.
  induction s as [|c s IH]; intros H.
  - reflexivity.
  - change (timingMatch (c :: s)) with
      (match timing_at (c :: s) with
       | Some m => Some m
       | None => timingMatch s
       end).
    rewrite (timing_at_digits _ H). apply IH.
    simpl in H. apply andb_true_iff in H as [_ H]. exact H.
Qed.

Lemma timingMatch_at (s : str) (m : str * str) :
  timing_at s = Some m -> timingMatch s = Some m.
Proof.
  intros H.
  replace (timingMatch s) with
    (match timing_at s with
     | Some m => Some m
     | None => match s with [] => None | _ :: rest => timingMatch rest end
     end) by (destruct s; reflexivity).
  rewrite H. reflexivity.
Qed.

Lemma short_not_long (s x : str) :
  full_match ts_short s = true -> match_atoms ts_long (s ++ x) = None.
Proof.
  intros H. apply full_match_forall2 in H.
  repeat match goal with
  | H : Forall2 _ _ _ |- _ => inversion H; subst; clear H
  end.
  simpl in *.
  repeat match goal with
  | H : is_digit ?c = true |- _ => rewrite H; clear H
  | H : N.eqb ?k ?c = true |- _ => apply N.eqb_eq in H; subst c
  end.
  reflexivity.
Qed.

Lemma vtt_timestamp_group2 (e : str) :
  is_vtt_timestamp e = true -> match_group2 e = Some e.
Proof.
  unfold is_vtt_timestamp, match_group2, match_ts. intros H.
  destruct (full_match ts_long e) eqn:El.
  - pose proof (full_match_extend _ _ [] El) as E.
    rewrite app_nil_r in E. rewrite E. reflexivity.
  - simpl in H. pose proof (short_not_long _ [] H) as E1.
    pose proof (full_match_extend _ _ [] H) as E2.
    rewrite app_nil_r in E1, E2. rewrite E1, E2. reflexivity.
Qed.

Lemma arrow_matches (r : str) :
  match_atoms arrow ($" --> " ++ r) = Some ($" --> ", r).
Proof. reflexivity. Qed.

Lemma timing_line_match (s e : str) :
  is_vtt_timestamp s = true -> is_vtt_timestamp e = true ->
  timingMatch (s ++ $" --> " ++ e) = Some (s, e).
Proof.
  intros Hs He. apply timingMatch_at.
  unfold timing_at, timing_with, match_ts.
  unfold is_vtt_timestamp in Hs. destruct (full_match ts_long s) eqn:El.
  - rewrite (full_match_extend _ _ _ El), arrow_matches.
    rewrite (vtt_timestamp_group2 _ He). reflexivity.
  - simpl in Hs. rewrite (short_not_long _ _ Hs).
    rewrite (full_match_extend _ _ _ Hs), arrow_matches.
    rewrite (vtt_timestamp_group2 _ He). reflexivity.
Qed.

Lemma full_match_head (p : list atom) (s : str) :
  full_match (Digit :: p) s = true ->
  exists c s', s = c :: s' /\ is_digit c = true.
Proof.
  intros H. apply full_match_forall2 in H. inversion H; subst. eauto.
Qed.

Lemma full_match_last (p : list atom) (s : str) :
  full_match (p ++ [Digit]) s = true ->
  exists s' c, s = s' ++ [c] /\ is_digit c = true.
Proof.
  intros H. apply full_match_forall2 in H.
  apply Forall2_app_inv_l in H as (s1 & s2 & _ & H2 & ->).
  inversion H2 as [|? c ? ? Hc H3]; subst. inversion H3; subst. eauto.
Qed.

Lemma full_match_avoids (p : list atom) (s : str) (x : char) :
  full_match p s = true ->
  Forall (fun a => atom_ok a x = false) p -> ~ In x s.
Proof.
  intros H. apply full_match_forall2 in H.
  induction H as [|a c p s Hac _ IH]; intros Hp; [easy|].
  inversion Hp; subst. intros [->|Hin]; [congruence|]. exact (IH H2 Hin).
Qed.

Lemma vtt_timestamp_edges (s : str) :
  is_vtt_timestamp s = true ->
  ~ In nl s /\
  (exists c s', s = c :: s' /\ is_digit c = true) /\
  (exists s' c, s = s' ++ [c] /\ is_digit c = true).
Proof.
  unfold is_vtt_timestamp. intros H. apply orb_true_iff in H.
  destruct H as [H|H]; (split; [|split]).
  - apply (full_match_avoids _ _ _ H). repeat constructor.
  - exact (full_match_head _ _ H).
  - exact (full_match_last (removelast ts_long) _ H).
  - apply (full_match_avoids _ _ _ H). repeat constructor.
  - exact (full_match_head _ _ H).
  - exact (full_match_last (removelast ts_short) _ H).
Qed.

(** *** Decimal numerals *)

Lemma uint_digits_all (u : Decimal.uint) : forallb is_digit (uint_digits u) = true.
Proof. induction u; simpl; try rewrite IHu; reflexivity. Qed.

Lemma decimal_all_digits (n : N) : all_digits (decimal n) = true.
Proof.
  unfold all_digits, decimal. rewrite uint_digits_all, andb_true_r.
  destruct n as [|p]; [reflexivity|]. simpl N.to_uint.
  pose proof (Unsigned.to_uint_nonnil p) as H.
  destruct (Pos.to_uint p); [congruence|..]; reflexivity.
Qed.

(** ** The VTT parser, line by line *)

Lemma parse_lines_cons (raw : str) (rest : list str) (cur : option cue)
    (cues : list cue) :
  parse_lines (raw :: rest) cur cues =
  let line := trim raw in
  if negb (truthy line) || str_eqb line $"WEBVTT"
  then parse_lines rest cur cues
  else if startsWith $"NOTE" line
  then skip_note rest cur cues
  else
    match timingMatch line with
    | Some (g1, g2) =>
        parse_lines rest (Some {| start := g1; end_ := g2; text := [] |})
          (push cur cues)
    | None =>
        match cur with
        | Some c =>
            if negb (all_digits line)
            then parse_lines rest
                   (Some (set_text
                      (text c ++ (if truthy (text c) then [nl] else []) ++ line)
                      c))
                   cues
            else parse_lines rest cur cues
        | None => parse_lines rest cur cues
        end
    end.
Proof. reflexivity. Qed.

Lemma parse_blank_line (rest : list str) (cur : option cue) (cues : list cue) :
  parse_lines ([] :: rest) cur cues = parse_lines rest cur cues.
Proof. reflexivity. Qed.

Lemma parse_header_line (rest : list str) (cur : option cue) (cues : list cue) :
  parse_lines ($"WEBVTT" :: rest) cur cues = parse_lines rest cur cues.
Proof. reflexivity. Qed.

Lemma digits_plain (l : str) : all_digits l = true -> plain_line l = true.
Proof.
  unfold all_digits, plain_line. intros H.
  apply andb_true_iff in H as [Ht Hd].
  rewrite Ht, (clean_trim _ (clean_digits _ Hd)), str_eqb_refl.
  rewrite (timingMatch_digits _ Hd).
  destruct l as [|c l]; [discriminate|].
  simpl in Hd. apply andb_true_iff in Hd as [Hc _].
  assert (N.eqb c 87 = false /\ N.eqb 78 c = false) as [E1 E2].
  { unfold is_digit in Hc. apply andb_true_iff in Hc as [H1 H2].
    apply N.leb_le in H1, H2. split; apply N.eqb_neq; lia. }
  eval_lits. simpl. rewrite E1, E2. reflexivity.
Qed.

Lemma parse_plain_line (l : str) (rest : list str) (cur : option cue)
    (cues : list cue) :
  plain_line l = true ->
  parse_lines (l :: rest) cur cues =
  match cur with
  | Some c =>
      if negb (all_digits l)
      then parse_lines rest
             (Some (set_text
                (text c ++ (if truthy (text c) then [nl] else []) ++ l) c))
             cues
      else parse_lines rest cur cues
  | None => parse_lines rest cur cues
  end.
Proof.
  unfold plain_line. intros H.
  apply andb_true_iff in H as [H Htm].
  apply andb_true_iff in H as [H Hnote].
  apply andb_true_iff in H as [H Hweb].
  apply andb_true_iff in H as [Htruthy Htrim].
  apply str_eqb_eq in Htrim.
  rewrite parse_lines_cons. cbv zeta. rewrite Htrim, Htruthy.
  apply negb_true_iff in Hweb, Hnote. rewrite Hweb, Hnote. simpl.
  destruct (timingMatch l); [discriminate|]. reflexivity.
Qed.

Lemma parse_index_line (n : N) (rest : list str) (cur : option cue)
    (cues : list cue) :
  parse_lines (decimal n :: rest) cur cues = parse_lines rest cur cues.
Proof.
  rewrite parse_plain_line by apply digits_plain, decimal_all_digits.
  rewrite decimal_all_digits. destruct cur; reflexivity.
Qed.

Lemma parse_timing_line (s e : str) (rest : list str) (cur : option cue)
    (cues : list cue) :
  is_vtt_timestamp s = true -> is_vtt_timestamp e = true ->
  parse_lines ((s ++ $" --> " ++ e) :: rest) cur cues =
  parse_lines rest (Some {| start := s; end_ := e; text := [] |})
    (push cur cues).
Proof.
  intros Hs He.
  destruct (vtt_timestamp_edges _ Hs) as (_ & (c & s' & Es & Hc) & _).
  destruct (vtt_timestamp_edges _ He) as (_ & _ & (e' & d & Ee & Hd)).
  assert (Hclean : clean (s ++ $" --> " ++ e)).
  { rewrite Es, Ee.
    replace ((c :: s') ++ $" --> " ++ e' ++ [d])
      with (c :: (s' ++ $" --> " ++ e') ++ [d])
      by (simpl; rewrite <- !app_assoc; reflexivity).
    apply clean_edges; apply is_digit_not_space; assumption. }
  rewrite parse_lines_cons. cbv zeta.
  rewrite (clean_trim _ Hclean), (timing_line_match _ _ Hs He).
  assert (E1 : N.eqb c 87 = false /\ N.eqb 78 c = false).
  { unfold is_digit in Hc. apply andb_true_iff in Hc as [H1 H2].
    apply N.leb_le in H1, H2. split; apply N.eqb_neq; lia. }
  destruct E1 as [E1 E2]. rewrite Es. eval_lits. simpl.
  rewrite E1, E2. reflexivity.
Qed.

Lemma add_lines_join (l : str) (ls : list str) :
  Forall (fun l => truthy l = true) (l :: ls) ->
  fold_left add_line ls l = join [nl] (l :: ls).
Proof.
  revert l. induction ls as [|l' ls IH]; intros l H; [reflexivity|].
  inversion H as [|? ? Hl H']; subst. inversion H' as [|? ? Hl' H'']; subst.
  simpl fold_left. unfold add_line at 2. rewrite Hl.
  rewrite IH.
  - change (join [nl] (l :: l' :: ls)) with (l ++ [nl] ++ join [nl] (l' :: ls)).
    destruct ls as [|l'' ls].
    + reflexivity.
    + change (join [nl] ((l ++ [nl] ++ l') :: l'' :: ls))
        with ((l ++ [nl] ++ l') ++ [nl] ++ join [nl] (l'' :: ls)).
      change (join [nl] (l' :: l'' :: ls))
        with (l' ++ [nl] ++ join [nl] (l'' :: ls)).
      rewrite <- !app_assoc. reflexivity.
  - constructor; [|exact H''].
    apply truthy_app_l. exact Hl.
Qed.

Lemma parse_text_lines (ls rest : list str) (c : cue) (cues : list cue) :
  Forall (fun l => text_line l = true) ls ->
  parse_lines (ls ++ rest) (Some c) cues =
  parse_lines rest (Some (set_text (fold_left add_line ls (text c)) c)) cues.
Proof.
  revert c. induction ls as [|l ls IH]; intros c H.
  - destruct c; reflexivity.
  - inversion H as [|? ? Hl H']; subst.
    unfold text_line in Hl. apply andb_true_iff in Hl as [Hp Hd].
    rewrite <- app_comm_cons, (parse_plain_line _ _ _ _ Hp), Hd.
    rewrite (IH _ H'). reflexivity.
Qed.

Lemma split_go_not_nil (sep s : str) (k : nat) (cur : str) :
  split_go sep s k cur <> [].
Proof.
  revert k cur. induction s as [|c s IH]; intros k cur; simpl; [easy|].
  destruct k; [|apply IH]. destruct (startsWith sep (c :: s)); [easy|apply IH].
Qed.

(** ** The encoder as a list of lines *)

Lemma emit_cues_body (index : nat) (cues : list cue) (acc : str) :
  emit_cues index cues acc = acc ++ body index cues.
Proof.
  revert index acc.
  induction cues as [|c cues IH]; intros index acc; cbn [emit_cues body].
  - rewrite app_nil_r. reflexivity.
  - rewrite IH. unfold cue_block. rewrite <- !app_assoc. reflexivity.
Qed.

Lemma convertCuesToVTT_body (cues : list cue) :
  convertCuesToVTT cues = $"WEBVTT" ++ [nl; nl] ++ body 0 cues.
Proof.
  unfold convertCuesToVTT. rewrite emit_cues_body, <- app_assoc. reflexivity.
Qed.

Lemma convertCuesToVTT_truthy (cues : list cue) :
  truthy (convertCuesToVTT cues) = true.
Proof. rewrite convertCuesToVTT_body. reflexivity. Qed.

Lemma digits_no_nl (s : str) : forallb is_digit s = true -> ~ In nl s.
Proof.
  intros H Hin. rewrite forallb_forall in H. specialize (H _ Hin).
  vm_compute in H. discriminate.
Qed.

Lemma timing_line_no_nl (c : cue) :
  is_vtt_timestamp (start c) = true -> is_vtt_timestamp (end_ c) = true ->
  ~ In nl (timing_line c).
Proof.
  intros Hs He. unfold timing_line.
  destruct (vtt_timestamp_edges _ Hs) as (Ns & _).
  destruct (vtt_timestamp_edges _ He) as (Ne & _).
  rewrite !in_app_iff. intros [H|[H|H]]; [easy| |easy].
  vm_compute in H. repeat destruct H as [H|H]; try discriminate H. exact H.
Qed.

Lemma split_body (index : nat) (cues : list cue) :
  Forall (fun c => cue_ok c = true) cues ->
  split [nl] (body index cues) = body_lines index cues ++ [[]].
Proof.
  revert index. induction cues as [|c cues IH]; intros index H; [reflexivity|].
  inversion H as [|? ? Hc H']; subst.
  unfold cue_ok in Hc. apply andb_true_iff in Hc as [Hc _].
  apply andb_true_iff in Hc as [Hs He].
  simpl body. unfold cue_block.
  replace (((decimal (N.of_nat (index + 1)) ++ [nl])
            ++ (start c ++ $" --> " ++ end_ c ++ [nl])
            ++ text c ++ [nl; nl]) ++ body (S index) cues)
    with (decimal (N.of_nat (index + 1)) ++ nl
          :: (timing_line c ++ nl
              :: (text c ++ nl :: ([] ++ nl :: body (S index) cues)))).
  - rewrite !split_nl_app, (IH _ H').
    rewrite (split_nl_free (decimal _)), (split_nl_free (timing_line c)).
    + simpl. unfold cue_lines. simpl. rewrite <- !app_assoc. reflexivity.
    + apply timing_line_no_nl; assumption.
    + apply digits_no_nl. pose proof (decimal_all_digits (N.of_nat (index + 1))) as Hd.
      unfold all_digits in Hd. apply andb_true_iff in Hd as [_ Hd]. exact Hd.
  - unfold timing_line. simpl. rewrite <- !app_assoc. simpl.
    rewrite <- !app_assoc. reflexivity.
Qed.

Lemma text_lines_join (t : str) :
  forallb text_line (split [nl] t) = true ->
  fold_left add_line (split [nl] t) [] = t.
Proof.
  intros H. rewrite forallb_forall in H.
  pose proof (join_split_nl t) as J.
  destruct (split [nl] t) as [|l ls] eqn:E.
  - exfalso. exact (split_go_not_nil _ _ _ _ E).
  - simpl fold_left. change (add_line [] l) with l.
    rewrite add_lines_join; [exact J|].
    apply List.Forall_forall. intros x Hx. specialize (H x Hx).
    unfold text_line, plain_line in H.
    repeat (apply andb_true_iff in H as [H _]). exact H.
Qed.

Lemma parse_body (index : nat) (cues : list cue) (cur : option cue)
    (acc : list cue) :
  Forall (fun c => cue_ok c = true) cues ->
  parse_lines (body_lines index cues ++ [[]]) cur acc = push cur acc ++ cues.
Proof.
  revert index cur acc.
  induction cues as [|c cues IH]; intros index cur acc H.
  - cbn [body_lines app]. rewrite parse_blank_line, app_nil_r. reflexivity.
  - inversion H as [|? ? Hc H']; subst.
    unfold cue_ok in Hc. apply andb_true_iff in Hc as [Hc Ht].
    apply andb_true_iff in Hc as [Hs He].
    simpl body_lines. unfold cue_lines, timing_line.
    rewrite <- !app_comm_cons, parse_index_line.
    rewrite (parse_timing_line _ _ _ _ _ Hs He).
    rewrite <- !app_assoc.
    rewrite parse_text_lines
      by (apply List.Forall_forall; rewrite forallb_forall in Ht; exact Ht).
    simpl text. rewrite (text_lines_join _ Ht).
    rewrite <- app_comm_cons, parse_blank_line. simpl app.
    rewrite (IH _ _ _ H'). unfold set_text; simpl.
    destruct c as [s e t]; simpl. rewrite <- app_assoc. reflexivity.
Qed.

Lemma parse_encoded (parseSRT : str -> result (list cue)) (cues : list cue) :
  Forall (fun c => cue_ok c = true) cues ->
  parseSubtitleContent parseSRT (convertCuesToVTT cues) vtt = cues.
Proof.
  intros H. unfold parseSubtitleContent. rewrite convertCuesToVTT_body.
  change ($"WEBVTT" ++ [nl; nl] ++ body 0 cues)
    with ($"WEBVTT" ++ nl :: ([] ++ nl :: body 0 cues)).
  rewrite !split_nl_app, (split_body _ _ H).
  change (split [nl] $"WEBVTT") with [$"WEBVTT"].
  change (split [nl] []) with [@nil char].
  cbn [app]. rewrite parse_header_line, parse_blank_line.
  apply (parse_body 0 cues None [] H).
Qed.

(** ** Batches *)

Lemma batch_loop_lookup (fuel i0 k : nat) (cues : list cue) :
  batch_loop fuel i0 cues !! k =
  if decide (k < fuel /\ i0 + k * batchSize < length cues)
  then Some (slice (i0 + k * batchSize) (i0 + k * batchSize + batchSize) cues)
  else None.
Proof.
  revert i0 k. induction fuel as [|fuel IH]; intros i0 k.
  - cbn [batch_loop]. rewrite lookup_nil. case_decide; [lia|reflexivity].
  - cbn [batch_loop]. destruct (Nat.ltb_spec i0 (length cues)) as [Hlt|Hge].
    + destruct k as [|k].
      * cbn [lookup list_lookup]. rewrite Nat.add_0_r.
        case_decide; [reflexivity|lia].
      * rewrite lookup_cons_ne_0 by lia. cbn [Nat.pred]. rewrite IH.
        replace (i0 + batchSize + k * batchSize) with (i0 + S k * batchSize) by lia.
        repeat case_decide; try reflexivity; lia.
    + rewrite lookup_nil. case_decide; [lia|reflexivity].
Qed.

(** The partition loop ends by its own test and never for lack of
    fuel: batch [i] is there exactly when [i * batchSize] is a position
    of [cues], and it is the slice that starts there. *)
Lemma make_batches_lookup (cues b : list cue) (i : nat) :
  make_batches cues !! i = Some b <->
  i * batchSize < length cues /\
  b = slice (i * batchSize) (i * batchSize + batchSize) cues.
Proof.
  unfold make_batches. rewrite batch_loop_lookup. simpl plus.
  unfold batchSize. case_decide as H.
  - split; [intros [= <-]; split; [lia|reflexivity]|intros [_ ->]; reflexivity].
  - split; [discriminate|]. intros [Hlt _]. lia.
Qed.

Lemma slice_lookup {A} (l : list A) (i j : nat) :
  j < batchSize ->
  slice i (i + batchSize) l !! j = l !! (i + j).
Proof.
  intros Hj. unfold slice.
  replace (i + batchSize - i) with batchSize by lia.
  rewrite lookup_take_lt by exact Hj. apply lookup_drop.
Qed.

Lemma slice_length {A} (l : list A) (i : nat) :
  length (slice i (i + batchSize) l) = Nat.min batchSize (length l - i).
Proof.
  unfold slice. rewrite length_take, length_drop.
  replace (i + batchSize - i) with batchSize by lia. reflexivity.
Qed.

Lemma batch_lookup (cues b : list cue) (i j : nat) (c : cue) :
  make_batches cues !! i = Some b -> b !! j = Some c ->
  cues !! (i * batchSize + j) = Some c.
Proof.
  intros Hb Hc. apply make_batches_lookup in Hb as [_ ->].
  assert (j < batchSize).
  { apply lookup_lt_Some in Hc. rewrite slice_length in Hc. lia. }
  rewrite slice_lookup in Hc by assumption. exact Hc.
Qed.

Lemma batch_full (cues b b' : list cue) (i i' : nat) :
  make_batches cues !! i = Some b -> i' < i ->
  make_batches cues !! i' = Some b' -> length b' = batchSize.
Proof.
  intros Hb Hlt Hb'.
  apply make_batches_lookup in Hb as [Hi _].
  apply make_batches_lookup in Hb' as [_ ->].
  rewrite slice_length. unfold batchSize in *. lia.
Qed.

Lemma batch_not_empty (cues b : list cue) (i : nat) :
  make_batches cues !! i = Some b -> 0 < length b <= batchSize.
Proof.
  intros Hb. apply make_batches_lookup in Hb as [Hi ->].
  rewrite slice_length. unfold batchSize in *. lia.
Qed.

Lemma make_batches_nil : make_batches [] = [].
Proof. reflexivity. Qed.

Lemma make_batches_first (cues : list cue) :
  cues <> [] -> exists b, make_batches cues !! 0 = Some b.
Proof.
  intros H. eexists. apply make_batches_lookup. split; [|reflexivity].
  destruct cues; [easy|]. simpl. lia.
Qed.

Lemma concat_lookup_chunks {A} (n : nat) (ls : list (list A)) (i j : nat)
    (l : list A) :
  (forall i' l', i' < i -> ls !! i' = Some l' -> length l' = n) ->
  ls !! i = Some l -> j < length l ->
  concat ls !! (i * n + j) = l !! j.
Proof.
  revert i. induction ls as [|l0 ls IH]; intros i Hfull Hl Hj.
  - rewrite lookup_nil in Hl. discriminate.
  - destruct i as [|i]; simpl in *.
    + injection Hl as ->. apply lookup_app_l. exact Hj.
    + assert (length l0 = n) as E by (apply (Hfull 0); [lia|reflexivity]).
      rewrite lookup_app_r by lia.
      replace (n + i * n + j - length l0) with (i * n + j) by lia.
      apply IH; [|exact Hl|exact Hj].
      intros i' l' Hi'. apply (Hfull (S i')). lia.
Qed.

(** ** Running the batch callbacks *)

Lemma add_trace_nil (w : world) : add_trace [] w = w.
Proof. destruct w. unfold add_trace. simpl. rewrite app_nil_r. reflexivity. Qed.

Lemma add_trace_app (e1 e2 : list event) (w : world) :
  add_trace e2 (add_trace e1 w) = add_trace (e1 ++ e2) w.
Proof. unfold add_trace. simpl. rewrite app_assoc. reflexivity. Qed.

Lemma translate_batch_run (net : network) (src tgt : str) (b : list cue)
    (i : nat) (w : world) :
  translate_batch net src tgt b i w =
  (batch_result net src tgt b i,
   add_trace [ModelRequest i (batch_prompt src tgt b)] w).
Proof.
  unfold translate_batch, batch_result, batch_answer, batch_prompt, bind, log,
    lift, ret, add_trace.
  destruct (translatedText_of _); reflexivity.
Qed.

Lemma promise_all_run (net : network) (src tgt : str) (i0 : nat)
    (bs : list (list cue)) (w : world) :
  promise_all (map_indexed (translate_batch net src tgt) i0 bs) w =
  (answers net src tgt i0 bs, add_trace (requests src tgt i0 bs) w).
Proof.
  revert i0 w. induction bs as [|b bs IH]; intros i0 w.
  - unfold answers, requests. simpl. rewrite add_trace_nil. reflexivity.
  - unfold answers, requests in *. cbn [map_indexed promise_all collect].
    rewrite translate_batch_run, IH, add_trace_app.
    destruct (collect _); [|reflexivity].
    destruct (batch_result net src tgt b i0); reflexivity.
Qed.

Lemma map_indexed_lookup {A B} (f : A -> nat -> B) (i0 k : nat) (l : list A) :
  map_indexed f i0 l !! k = (fun x => f x (i0 + k)) <$> l !! k.
Proof.
  revert i0 k. induction l as [|x l IH]; intros i0 k; [reflexivity|].
  destruct k as [|k]; cbn [map_indexed].
  - simpl. rewrite Nat.add_0_r. reflexivity.
  - rewrite !lookup_cons_ne_0 by lia. cbn [Nat.pred]. rewrite IH.
    replace (S i0 + k) with (i0 + S k) by lia. reflexivity.
Qed.

Lemma collect_ok {A} (rs : list (result A)) (l : list A) :
  collect rs = Ok l <-> rs = map Ok l.
Proof.
  revert l. induction rs as [|r rs IH]; intros l; simpl.
  - split; [intros [= <-]; reflexivity|]. destruct l; [reflexivity|discriminate].
  - destruct (collect rs) as [l'|] eqn:E.
    + destruct r as [a|].
      * split.
        -- intros [= <-]. simpl. f_equal. apply IH. reflexivity.
        -- destruct l as [|a0 l]; [discriminate|]. simpl. intros [= -> Hrs].
           apply IH in Hrs. injection Hrs as ->. reflexivity.
      * split; [discriminate|]. destruct l; discriminate.
    + split; [discriminate|]. destruct l as [|a0 l]; [discriminate|].
      simpl. intros [= -> Hrs]. apply IH in Hrs. discriminate.
Qed.

Lemma collect_thrown {A} (rs : list (result A)) :
  collect rs = Thrown <-> exists k, rs !! k = Some Thrown.
Proof.
  induction rs as [|r rs IH]; simpl.
  - split; [discriminate|]. intros [k Hk]. rewrite lookup_nil in Hk. discriminate.
  - destruct (collect rs) as [l'|] eqn:E.
    + destruct r as [a|].
      * split; [discriminate|]. intros [[|k] Hk]; [discriminate|].
        simpl in Hk. assert (Ok l' = Thrown) as X by (apply IH; eauto).
        discriminate.
      * split; [|reflexivity]. intros _. exists 0. reflexivity.
    + split; [|reflexivity]. intros _.
      destruct (proj1 IH eq_refl) as [k Hk]. exists (S k). exact Hk.
Qed.

(** Every batch is answered exactly when [Promise.all] resolves. *)
Lemma answers_ok (net : network) (src tgt : str) (bs : list (list cue))
    (tbs : list (list str)) :
  answers net src tgt 0 bs = Ok tbs <->
  length tbs = length bs /\
  forall i b, bs !! i = Some b ->
    exists t, batch_answer net src tgt b i = Ok t
              /\ tbs !! i = Some (reconcile b t).
Proof.
  unfold answers. rewrite collect_ok. split.
  - intros E.
    assert (Hlk : forall i, map_indexed (batch_result net src tgt) 0 bs !! i
                            = Ok <$> tbs !! i).
    { intros i. rewrite E. apply list_lookup_fmap. }
    split.
    + apply (f_equal length) in E. rewrite length_map in E. rewrite <- E.
      clear. generalize 0. induction bs; intros; simpl; [reflexivity|].
      rewrite IHbs. reflexivity.
    + intros i b Hb. specialize (Hlk i).
      rewrite map_indexed_lookup, Hb in Hlk. simpl in Hlk.
      unfold batch_result in Hlk.
      destruct (batch_answer net src tgt b i) as [t|];
        destruct (tbs !! i) as [tb|]; try discriminate.
      injection Hlk as <-. eauto.
  - intros [Hlen H]. apply list_eq. intros i.
    rewrite map_indexed_lookup, list_lookup_fmap. simpl.
    destruct (bs !! i) as [b|] eqn:Hb.
    + destruct (H i b Hb) as (t & Ht & Htb). rewrite Htb. simpl.
      unfold batch_result. rewrite Ht. reflexivity.
    + apply lookup_ge_None in Hb. rewrite <- Hlen in Hb.
      apply lookup_ge_None in Hb. rewrite Hb. reflexivity.
Qed.

(** [Promise.all] rejects exactly when the call of some batch fails. *)
Lemma answers_thrown (net : network) (src tgt : str) (bs : list (list cue)) :
  answers net src tgt 0 bs = Thrown <->
  exists i b, bs !! i = Some b /\ batch_answer net src tgt b i = Thrown.
Proof.
  unfold answers. rewrite collect_thrown. split.
  - intros [k Hk]. rewrite map_indexed_lookup in Hk. simpl in Hk.
    destruct (bs !! k) as [b|] eqn:Hb; [|discriminate]. simpl in Hk.
    exists k, b. split; [exact Hb|]. unfold batch_result in Hk.
    destruct (batch_answer net src tgt b k); [discriminate|reflexivity].
  - intros (i & b & Hb & Hf). exists i.
    rewrite map_indexed_lookup, Hb. simpl. unfold batch_result.
    rewrite Hf. reflexivity.
Qed.

(** ** Writing the translations back *)

Lemma apply_fold (ts : list str) (pre cs : list cue) :
  fold_left apply_one ts (pre ++ cs, length pre) =
  (pre ++ zip_with retext cs ts ++ drop (length ts) cs,
   length pre + Nat.min (length ts) (length cs)).
Proof.
  revert pre cs. induction ts as [|t ts IH]; intros pre cs.
  - simpl. rewrite Nat.add_0_r. destruct cs; reflexivity.
  - destruct cs as [|c cs].
    + cbn [fold_left apply_one]. rewrite app_nil_r.
      rewrite (proj2 (Nat.ltb_ge _ _)) by lia.
      pose proof (IH pre []) as E. rewrite app_nil_r in E. rewrite E.
      rewrite Nat.min_0_r, drop_nil. destruct ts; simpl; rewrite ?app_nil_r; reflexivity.
    + cbn [fold_left apply_one].
      rewrite (proj2 (Nat.ltb_lt _ _)) by (rewrite length_app; simpl; lia).
      replace (alter (set_text (trim t)) (length pre) (pre ++ c :: cs))
        with ((pre ++ [retext c t]) ++ cs).
      * replace (S (length pre)) with (length (pre ++ [retext c t]))
          by (rewrite length_app; simpl; lia).
        rewrite IH, length_app. simpl. rewrite <- !app_assoc. simpl.
        f_equal. lia.
      * rewrite <- app_assoc. simpl.
        symmetry. rewrite (alter_app_r_alt _ pre (c :: cs) (length pre)) by lia.
        rewrite Nat.sub_diag. reflexivity.
Qed.

Lemma fold_batches (tbs : list (list str)) (st : list cue * nat) :
  fold_left (fun st tb => fold_left apply_one tb st) tbs st
  = fold_left apply_one (concat tbs) st.
Proof.
  revert st. induction tbs as [|tb tbs IH]; intros st; simpl; [reflexivity|].
  rewrite IH, fold_left_app. reflexivity.
Qed.

Lemma apply_batches_closed (cues : list cue) (tbs : list (list str)) :
  apply_batches cues tbs =
  zip_with retext cues (concat tbs) ++ drop (length (concat tbs)) cues.
Proof.
  unfold apply_batches. rewrite fold_batches.
  pose proof (apply_fold (concat tbs) [] cues) as E.
  cbn [app length] in E. rewrite E. reflexivity.
Qed.

(** Only the text of a cue is written: the number of cues and their
    timestamps stay. *)
Lemma apply_batches_frame (cues : list cue) (tbs : list (list str)) :
  Forall2 (fun c c' => start c' = start c /\ end_ c' = end_ c)
    cues (apply_batches cues tbs).
Proof.
  rewrite apply_batches_closed. generalize (concat tbs) as ts.
  induction cues as [|c cues IH]; intros ts.
  - destruct ts; constructor.
  - destruct ts as [|t ts]; simpl.
    + constructor; [easy|]. specialize (IH []).
      destruct cues; simpl in *; exact IH.
    + constructor; [easy|]. apply IH.
Qed.

Lemma reconcile_length (batch : list cue) (t : str) :
  length (reconcile batch t) = length batch.
Proof.
  unfold reconcile.
  destruct (Nat.eqb_spec (length (split separator t)) (length batch)) as [E|E];
    simpl; [exact E|].
  destruct (Nat.leb_spec (length batch)
              (length (List.filter (fun line => truthy (trim line))
                         (split [nl] t)))) as [H|H].
  - rewrite length_take. lia.
  - apply length_map.
Qed.

(** The cue at position [j] of batch [i] receives segment [j] of what
    the batch resolved to. *)
Lemma apply_batches_lookup (cues : list cue) (tbs : list (list str))
    (i j : nat) (b : list cue) (tb : list str) (c : cue) (t : str) :
  (forall i' b', make_batches cues !! i' = Some b' ->
     exists tb', tbs !! i' = Some tb' /\ length tb' = length b') ->
  make_batches cues !! i = Some b -> tbs !! i = Some tb ->
  b !! j = Some c -> tb !! j = Some t ->
  apply_batches cues tbs !! (i * batchSize + j) = Some (retext c t).
Proof.
  intros Hall Hb Htb Hc Ht.
  assert (Hcue : cues !! (i * batchSize + j) = Some c)
    by exact (batch_lookup _ _ _ _ _ Hb Hc).
  assert (Hseg : concat tbs !! (i * batchSize + j) = Some t).
  { rewrite <- Ht. apply concat_lookup_chunks; [|exact Htb|].
    - intros i' tb' Hi' Htb'.
      destruct (make_batches cues !! i') as [b'|] eqn:Hb'.
      + destruct (Hall _ _ Hb') as (tb'' & E & Hlen).
        rewrite Htb' in E. injection E as <-. rewrite Hlen.
        exact (batch_full _ _ _ _ _ Hb Hi' Hb').
      + apply lookup_ge_None in Hb'. apply lookup_lt_Some in Hb. lia.
    - apply lookup_lt_Some in Ht. exact Ht. }
  rewrite apply_batches_closed, lookup_app_l.
  - rewrite lookup_zip_with, Hcue, Hseg. reflexivity.
  - rewrite length_zip_with. apply lookup_lt_Some in Hcue, Hseg. lia.
Qed.

(** ** The translation call, case by case *)

Section TranslatorFacts.

Variable parseSRT : str -> result (list cue).
Variable md5 : str -> str.

Abbreviation decode content :=
  (parseSubtitleContent parseSRT content (detect_format content)).
Abbreviation key_of := (cacheKey_of md5).
Abbreviation translate := (translateSubtitle parseSRT md5).
Abbreviation attempt := (translate_attempt parseSRT).

Lemma translate_hit (net : network) (content src tgt cached : str) (w : world) :
  lookup_hit (key_of content src tgt) w = Some cached ->
  translate net content src tgt w = (Ok cached, w).
Proof.
  unfold lookup_hit, translateSubtitle, bind, cache_get, ret. intros H.
  destruct (store_get _ _ _) as [c|]; [|discriminate].
  destruct (truthy c); [|discriminate]. injection H as ->. reflexivity.
Qed.

Lemma translate_miss (net : network) (content src tgt : str) (w : world) :
  lookup_hit (key_of content src tgt) w = None ->
  translate net content src tgt w =
  try_catch (attempt net content src tgt (key_of content src tgt))
    (ret content) w.
Proof.
  unfold lookup_hit, translateSubtitle, bind, cache_get, ret. intros H.
  destruct (store_get _ _ _) as [c|]; [|reflexivity].
  destruct (truthy c); [discriminate|reflexivity].
Qed.

Lemma attempt_no_cues (net : network) (content src tgt key : str) (w : world) :
  decode content = [] ->
  attempt net content src tgt key w = (Ok content, w).
Proof. unfold translate_attempt. intros ->. reflexivity. Qed.

Lemma attempt_thrown (net : network) (content src tgt key : str) (w : world) :
  decode content <> [] ->
  answers net src tgt 0 (make_batches (decode content)) = Thrown ->
  attempt net content src tgt key w =
  (Thrown, add_trace (requests src tgt 0 (make_batches (decode content))) w).
Proof.
  unfold translate_attempt. intros Hne Hans.
  destruct (decode content) as [|c cues] eqn:E; [easy|].
  cbn [length Nat.eqb]. unfold bind at 1.
  rewrite promise_all_run, Hans. reflexivity.
Qed.

Lemma attempt_ok (net : network) (content src tgt key : str) (w : world)
    (tbs : list (list str)) :
  decode content <> [] ->
  answers net src tgt 0 (make_batches (decode content)) = Ok tbs ->
  attempt net content src tgt key w =
  (Ok (convertCuesToVTT (apply_batches (decode content) tbs)),
   after_write net (requests src tgt 0 (make_batches (decode content))) key
     (convertCuesToVTT (apply_batches (decode content) tbs)) w).
Proof.
  unfold translate_attempt. intros Hne Hans.
  destruct (decode content) as [|c cues] eqn:E; [easy|].
  cbn [length Nat.eqb]. unfold bind at 1.
  rewrite promise_all_run, Hans.
  unfold bind, elapse, cache_set, ret, after_write, add_trace. simpl.
  rewrite <- app_assoc. reflexivity.
Qed.

Lemma translate_ending (net : network) (content src tgt : str) (w : world) :
  exists s w', translate net content src tgt w = (Ok s, w')
               /\ ending parseSRT md5 net content src tgt w s w'.
Proof.
  destruct (lookup_hit (key_of content src tgt) w) as [cached|] eqn:Hit.
  - exists cached, w. split; [apply translate_hit; exact Hit|].
    constructor; exact Hit.
  - rewrite (translate_miss _ _ _ _ _ Hit). unfold try_catch.
    destruct (decode content) as [|c cues] eqn:E.
    + rewrite attempt_no_cues by exact E. eexists _, _. split; [reflexivity|].
      apply NoCues; assumption.
    + destruct (answers net src tgt 0 (make_batches (decode content)))
        as [tbs|] eqn:Hans.
      * rewrite (attempt_ok _ _ _ _ _ _ tbs); [|rewrite E; easy|exact Hans].
        eexists _, _. split; [reflexivity|].
        apply Translated; [exact Hit|rewrite E; easy|exact Hans].
      * rewrite attempt_thrown; [|rewrite E; easy|exact Hans].
        eexists _, _. split; [reflexivity|].
        apply Failed; [exact Hit|rewrite E; easy|exact Hans].
Qed.

End TranslatorFacts.

(** ** Texts read by the VTT parser carry no outer white space *)

Lemma push_clean (cur : option cue) (acc : list cue) :
  (forall c, cur = Some c -> clean (text c)) ->
  List.Forall (fun c => clean (text c)) acc ->
  List.Forall (fun c => clean (text c)) (push cur acc).
Proof.
  intros Hc Ha. destruct cur as [c|]; simpl; [|exact Ha].
  apply Forall_app. split; [exact Ha|]. constructor; [|constructor].
  apply Hc. reflexivity.
Qed.

Lemma parse_lines_clean (lines : list str) :
  forall cur acc,
    (forall c, cur = Some c -> clean (text c)) ->
    List.Forall (fun c => clean (text c)) acc ->
    List.Forall (fun c => clean (text c)) (parse_lines lines cur acc) /\
    List.Forall (fun c => clean (text c)) (skip_note lines cur acc).
Proof.
  induction lines as [|raw rest IH]; intros cur acc Hc Ha.
  - split; apply push_clean; assumption.
  - split.
    + rewrite parse_lines_cons. cbv zeta.
      destruct (negb (truthy (trim raw)) || str_eqb (trim raw) $"WEBVTT") eqn:E1;
        [apply IH; assumption|].
      destruct (startsWith $"NOTE" (trim raw)); [apply IH; assumption|].
      destruct (timingMatch (trim raw)) as [[g1 g2]|].
      * apply IH; [|apply push_clean; assumption].
        intros c [= <-]. left; reflexivity.
      * destruct cur as [c|]; [|apply IH; assumption].
        destruct (negb (all_digits (trim raw))); [|apply IH; assumption].
        apply IH; [|assumption]. intros c' [= <-]. simpl.
        apply orb_false_iff in E1 as [E1 _]. apply negb_false_iff in E1.
        pose proof (trim_clean raw) as Hl.
        destruct (text c) as [|x t] eqn:Et.
        -- exact Hl.
        -- change (truthy (x :: t)) with true. cbv iota.
           apply clean_app; try easy.
           ++ rewrite <- Et. apply Hc. reflexivity.
           ++ intros E. rewrite E in E1. discriminate.
    + cbn [skip_note]. destruct (truthy (trim raw)); apply IH; assumption.
Qed.

Lemma vtt_texts_clean (parseSRT : str -> result (list cue)) (content : str) :
  List.Forall (fun c => trim (text c) = text c)
    (parseSubtitleContent parseSRT content vtt).
Proof.
  unfold parseSubtitleContent.
  eapply List.Forall_impl; [intros c Hc; apply clean_trim; exact Hc|].
  apply parse_lines_clean; [discriminate|constructor].
Qed.

Lemma retrim_clean (cues : list cue) :
  List.Forall (fun c => trim (text c) = text c) cues ->
  map (fun c => set_text (trim (text c)) c) cues = cues.
Proof.
  induction 1 as [|c l Hc _ IH]; [reflexivity|].
  simpl. rewrite IH, Hc. destruct c; reflexivity.
Qed.

(** Every cue sits in the batch that its position selects. *)
Lemma batch_cover (cues : list cue) (n : nat) (c : cue) :
  cues !! n = Some c ->
  exists b, make_batches cues !! (n / batchSize) = Some b
            /\ b !! (n mod batchSize) = Some c.
Proof.
  intros Hn. pose proof (lookup_lt_Some _ _ _ Hn) as Hlt.
  pose proof (Nat.div_mod_eq n batchSize) as Hdm.
  pose proof (Nat.mod_upper_bound n batchSize ltac:(discriminate)) as Hm.
  eexists. split.
  - apply make_batches_lookup. split; [|reflexivity]. unfold batchSize in *. lia.
  - rewrite slice_lookup by exact Hm.
    replace (n / batchSize * batchSize + n mod batchSize) with n by lia.
    exact Hn.
Qed.

Lemma requests_are_model_requests (src tgt : str) (i0 : nat)
    (bs : list (list cue)) (key value : str) :
  ~ In (CacheSet key value) (requests src tgt i0 bs).
Proof.
  unfold requests. revert i0. induction bs as [|b bs IH]; intros i0; [easy|].
  cbn [map_indexed]. intros [H|H]; [discriminate|exact (IH _ H)].
Qed.

Lemma live_entry_hit (key document : str) (w : world) (written d : N) :
  cache w !! key = Some (document, (written + stdTTL * 1000)%N) ->
  truthy document = true ->
  now w = (written + d)%N -> (d <= stdTTL * 1000)%N ->
  lookup_hit key w = Some document.
Proof.
  intros Hc Ht Hn Hd. unfold lookup_hit, store_get. rewrite Hc, Hn.
  rewrite (proj2 (N.ltb_ge _ _)) by lia. rewrite Ht. reflexivity.
Qed.

Lemma expired_entry_miss (key document : str) (w : world) (written d : N) :
  cache w !! key = Some (document, (written + stdTTL * 1000)%N) ->
  now w = (written + d)%N -> (stdTTL * 1000 < d)%N ->
  lookup_hit key w = None.
Proof.
  intros Hc Hn Hd. unfold lookup_hit, store_get. rewrite Hc, Hn.
  rewrite (proj2 (N.ltb_lt _ _)) by lia. reflexivity.
Qed.

(** A call that misses the cache, decodes a cue and has every batch
    answered takes the translating path. *)
Lemma translated_run (parseSRT : str -> result (list cue)) (md5 : str -> str)
    (net : network) (content src tgt : str) (w : world) :
  lookup_hit (cacheKey_of md5 content src tgt) w = None ->
  parseSubtitleContent parseSRT content (detect_format content) <> [] ->
  (forall i b,
     make_batches (parseSubtitleContent parseSRT content (detect_format content))
       !! i = Some b ->
     batch_answer net src tgt b i <> Thrown) ->
  exists tbs,
    answers net src tgt 0
      (make_batches (parseSubtitleContent parseSRT content (detect_format content)))
      = Ok tbs /\
    translateSubtitle parseSRT md5 net content src tgt w =
    (Ok (convertCuesToVTT
           (apply_batches
              (parseSubtitleContent parseSRT content (detect_format content)) tbs)),
     after_write net
       (requests src tgt 0
          (make_batches
             (parseSubtitleContent parseSRT content (detect_format content))))
       (cacheKey_of md5 content src tgt)
       (convertCuesToVTT
          (apply_batches
             (parseSubtitleContent parseSRT content (detect_format content)) tbs))
       w).
Proof.
  intros Hit Hne Hall.
  destruct (translate_ending parseSRT md5 net content src tgt w)
    as (s & w' & Hrun & Hend).
  destruct Hend as [cached Hc|_ Hno|_ _ Hthrown|tbs _ _ Hans].
  - congruence.
  - contradiction.
  - apply answers_thrown in Hthrown as (i & b & Hb & Hf).
    exfalso. exact (Hall i b Hb Hf).
  - exists tbs. split; [exact Hans|exact Hrun].
Qed.

Lemma trimEnd_app_keep (a b : str) (c : char) :
  is_space c = false ->
  trimEnd ((a ++ [c]) ++ b) = (a ++ [c]) ++ trimEnd b.
Proof.
  intros Hc. unfold trimEnd.
  assert (K : forall (x : str),
            trimStart (x ++ c :: rev a) = trimStart x ++ c :: rev a).
  { induction x as [|e x IH]; simpl; [rewrite Hc; reflexivity|].
    destruct (is_space e); [exact IH|reflexivity]. }
  rewrite (rev_app_distr (a ++ [c]) b), (rev_app_distr a [c]).
  cbn [rev app]. rewrite K, rev_app_distr. cbn [rev].
  rewrite rev_involutive. reflexivity.
Qed.

Lemma header_detected (rest : str) :
  detect_format ($"WEBVTT" ++ rest) = vtt.
Proof.
  unfold detect_format, trim.
  change (trimStart ($"WEBVTT" ++ rest)) with ($"WEBVTT" ++ rest).
  change ($"WEBVTT" ++ rest) with (($"WEBVT" ++ [84%N]) ++ rest).
  rewrite trimEnd_app_keep by reflexivity. reflexivity.
Qed.

(** ** Cues decoded from VTT *)

Lemma match_ts_full (p : list atom) (s g r : str) :
  match_ts p s = Some (g, r) -> full_match p g = true.
Proof.
  unfold match_ts. intros H. apply match_atoms_split in H as [_ H].
  apply full_match_forall2. exact H.
Qed.

Lemma match_group2_timestamp (s g : str) :
  match_group2 s = Some g -> is_vtt_timestamp g = true.
Proof.
  unfold match_group2, is_vtt_timestamp.
  destruct (match_ts ts_long s) as [[g1 r1]|] eqn:E1.
  - intros [= <-]. rewrite (match_ts_full _ _ _ _ E1). reflexivity.
  - destruct (match_ts ts_short s) as [[g2 r2]|] eqn:E2; [|discriminate].
    intros [= <-]. rewrite (match_ts_full _ _ _ _ E2). apply orb_true_r.
Qed.

Lemma timing_with_timestamps (p : list atom) (s g1 g2 : str) :
  timing_with p s = Some (g1, g2) ->
  full_match p g1 = true /\ is_vtt_timestamp g2 = true.
Proof.
  unfold timing_with.
  destruct (match_ts p s) as [[m r1]|] eqn:E1; [|discriminate].
  destruct (match_atoms arrow r1) as [[a r2]|]; [|discriminate].
  destruct (match_group2 r2) as [g|] eqn:E2; [|discriminate].
  intros [= <- <-]. split.
  - exact (match_ts_full _ _ _ _ E1).
  - exact (match_group2_timestamp _ _ E2).
Qed.

Lemma timing_at_timestamps (s g1 g2 : str) :
  timing_at s = Some (g1, g2) ->
  is_vtt_timestamp g1 = true /\ is_vtt_timestamp g2 = true.
Proof.
  unfold timing_at, is_vtt_timestamp.
  destruct (timing_with ts_long s) as [[a b]|] eqn:E1.
  - intros [= <- <-]. apply timing_with_timestamps in E1 as [-> H2].
    split; [reflexivity|exact H2].
  - intros E2. apply timing_with_timestamps in E2 as [-> H2].
    split; [apply orb_true_r|exact H2].
Qed.

Lemma timingMatch_timestamps (line g1 g2 : str) :
  timingMatch line = Some (g1, g2) ->
  is_vtt_timestamp g1 = true /\ is_vtt_timestamp g2 = true.
Proof.
  induction line as [|c line IH].
  - cbn [timingMatch]. destruct (timing_at []) as [[a b]|] eqn:E; [|discriminate].
    intros [= <- <-]. exact (timing_at_timestamps _ _ _ E).
  - cbn [timingMatch]. destruct (timing_at (c :: line)) as [[a b]|] eqn:E.
    + intros [= <- <-]. exact (timing_at_timestamps _ _ _ E).
    + exact IH.
Qed.

Lemma trimStart_in (x : char) (s : str) : In x (trimStart s) -> In x s.
Proof.
  induction s as [|c s IH]; simpl; [easy|].
  destruct (is_space c); [right; apply IH; assumption|easy].
Qed.

Lemma trim_in (x : char) (s : str) : In x (trim s) -> In x s.
Proof.
  unfold trim, trimEnd. intros H. apply trimStart_in.
  apply in_rev in H. apply trimStart_in in H. apply in_rev in H. exact H.
Qed.

Lemma text_line_trim (raw : str) :
  (negb (truthy (trim raw)) || str_eqb (trim raw) $"WEBVTT") = false ->
  startsWith $"NOTE" (trim raw) = false ->
  timingMatch (trim raw) = None ->
  negb (all_digits (trim raw)) = true ->
  text_line (trim raw) = true.
Proof.
  intros H1 H2 H3 H4. apply orb_false_iff in H1 as [Ht Hw].
  apply negb_false_iff in Ht.
  unfold text_line, plain_line.
  rewrite Ht, trim_idemp, str_eqb_refl, Hw, H2, H3, H4. reflexivity.
Qed.

Lemma decoded_text_add (t l : str) :
  negb (truthy t) || forallb text_line (split [nl] t) = true ->
  text_line l = true -> ~ In nl l ->
  negb (truthy (add_line t l))
  || forallb text_line (split [nl] (add_line t l)) = true.
Proof.
  intros Ht Hl Hn. apply orb_true_iff. right.
  destruct t as [|x t].
  - change (add_line [] l) with l. rewrite (split_nl_free _ Hn).
    simpl. rewrite Hl. reflexivity.
  - simpl in Ht. change (add_line (x :: t) l) with ((x :: t) ++ nl :: l).
    rewrite split_nl_app, forallb_app, Ht, (split_nl_free _ Hn).
    simpl. rewrite Hl. reflexivity.
Qed.

Lemma push_decoded (cur : option cue) (acc : list cue) :
  (forall c, cur = Some c -> decoded_cue c = true) ->
  List.Forall (fun c => decoded_cue c = true) acc ->
  List.Forall (fun c => decoded_cue c = true) (push cur acc).
Proof.
  intros Hc Ha. destruct cur as [c|]; simpl; [|exact Ha].
  apply Forall_app. split; [exact Ha|]. constructor; [|constructor].
  apply Hc. reflexivity.
Qed.

Lemma parse_lines_decoded (lines : list str) :
  List.Forall (fun l => ~ In nl l) lines ->
  forall cur acc,
    (forall c, cur = Some c -> decoded_cue c = true) ->
    List.Forall (fun c => decoded_cue c = true) acc ->
    List.Forall (fun c => decoded_cue c = true) (parse_lines lines cur acc) /\
    List.Forall (fun c => decoded_cue c = true) (skip_note lines cur acc).
Proof.
  induction 1 as [|raw rest Hraw _ IH]; intros cur acc Hc Ha.
  - split; apply push_decoded; assumption.
  - split.
    + rewrite parse_lines_cons. cbv zeta.
      destruct (negb (truthy (trim raw)) || str_eqb (trim raw) $"WEBVTT") eqn:E1;
        [apply IH; assumption|].
      destruct (startsWith $"NOTE" (trim raw)) eqn:E2; [apply IH; assumption|].
      destruct (timingMatch (trim raw)) as [[g1 g2]|] eqn:E3.
      * apply IH; [|apply push_decoded; assumption].
        intros c [= <-]. unfold decoded_cue. simpl.
        destruct (timingMatch_timestamps _ _ _ E3) as [-> ->]. reflexivity.
      * destruct cur as [c|]; [|apply IH; assumption].
        destruct (negb (all_digits (trim raw))) eqn:E4; [|apply IH; assumption].
        apply IH; [|assumption]. intros c' [= <-].
        specialize (Hc c eq_refl). unfold decoded_cue in Hc |- *.
        apply andb_true_iff in Hc as [Hts Htext]. simpl. rewrite Hts.
        apply (decoded_text_add (text c) (trim raw) Htext).
        -- apply text_line_trim; assumption.
        -- intros Hin. apply Hraw. exact (trim_in _ _ Hin).
    + cbn [skip_note]. destruct (truthy (trim raw)); apply IH; assumption.
Qed.

Lemma vtt_cues_decoded (parseSRT : str -> result (list cue)) (content : str) :
  List.Forall (fun c => decoded_cue c = true)
    (parseSubtitleContent parseSRT content vtt).
Proof.
  unfold parseSubtitleContent.
  apply parse_lines_decoded; [apply split_nl_lines|discriminate|constructor].
Qed.

(** ** Encoding what was decoded *)

Lemma split_body_decoded (index : nat) (cues : list cue) :
  List.Forall (fun c => decoded_cue c = true) cues ->
  split [nl] (body index cues) = body_lines index cues ++ [[]].
Proof.
  revert index. induction cues as [|c cues IH]; intros index H; [reflexivity|].
  inversion H as [|? ? Hc H']; subst.
  unfold decoded_cue in Hc. apply andb_true_iff in Hc as [Hc _].
  apply andb_true_iff in Hc as [Hs He].
  simpl body. unfold cue_block.
  replace (((decimal (N.of_nat (index + 1)) ++ [nl])
            ++ (start c ++ $" --> " ++ end_ c ++ [nl])
            ++ text c ++ [nl; nl]) ++ body (S index) cues)
    with (decimal (N.of_nat (index + 1)) ++ nl
          :: (timing_line c ++ nl
              :: (text c ++ nl :: ([] ++ nl :: body (S index) cues)))).
  - rewrite !split_nl_app, (IH _ H').
    rewrite (split_nl_free (decimal _)), (split_nl_free (timing_line c)).
    + simpl. unfold cue_lines. simpl. rewrite <- !app_assoc. reflexivity.
    + apply timing_line_no_nl; assumption.
    + apply digits_no_nl.
      pose proof (decimal_all_digits (N.of_nat (index + 1))) as Hd.
      unfold all_digits in Hd. apply andb_true_iff in Hd as [_ Hd]. exact Hd.
  - unfold timing_line. simpl. rewrite <- !app_assoc. simpl.
    rewrite <- !app_assoc. reflexivity.
Qed.

Lemma parse_body_decoded (index : nat) (cues : list cue) (cur : option cue)
    (acc : list cue) :
  List.Forall (fun c => decoded_cue c = true) cues ->
  parse_lines (body_lines index cues ++ [[]]) cur acc = push cur acc ++ cues.
Proof.
  revert index cur acc.
  induction cues as [|c cues IH]; intros index cur acc H.
  - cbn [body_lines app]. rewrite parse_blank_line, app_nil_r. reflexivity.
  - inversion H as [|? ? Hc H']; subst.
    unfold decoded_cue in Hc. apply andb_true_iff in Hc as [Hc Ht].
    apply andb_true_iff in Hc as [Hs He].
    simpl body_lines. unfold cue_lines, timing_line.
    rewrite <- !app_comm_cons, parse_index_line.
    rewrite (parse_timing_line _ _ _ _ _ Hs He).
    rewrite <- !app_assoc.
    destruct c as [s e t]. cbn [start end_ text] in *.
    destruct t as [|x t].
    + change (split [nl] []) with [@nil char]. cbn [app].
      rewrite !parse_blank_line, (IH _ _ _ H'). cbn [push].
      rewrite <- app_assoc. reflexivity.
    + simpl in Ht.
      rewrite parse_text_lines
        by (apply List.Forall_forall; rewrite forallb_forall in Ht; exact Ht).
      simpl text. rewrite (text_lines_join _ Ht).
      rewrite <- app_comm_cons, parse_blank_line. simpl app.
      rewrite (IH _ _ _ H'). unfold set_text; simpl.
      rewrite <- app_assoc. reflexivity.
Qed.

Lemma parse_encoded_decoded (parseSRT : str -> result (list cue))
    (cues : list cue) :
  List.Forall (fun c => decoded_cue c = true) cues ->
  parseSubtitleContent parseSRT (convertCuesToVTT cues) vtt = cues.
Proof.
  intros H. unfold parseSubtitleContent. rewrite convertCuesToVTT_body.
  change ($"WEBVTT" ++ [nl; nl] ++ body 0 cues)
    with ($"WEBVTT" ++ nl :: ([] ++ nl :: body 0 cues)).
  rewrite !split_nl_app, (split_body_decoded _ _ H).
  change (split [nl] $"WEBVTT") with [$"WEBVTT"].
  change (split [nl] []) with [@nil char].
  cbn [app]. rewrite parse_header_line, parse_blank_line.
  apply (parse_body_decoded 0 cues None [] H).
Qed.


(** * The claims *)

Section Claims.

Variable parseSRT : str -> result (list cue).
Variable md5 : str -> str.

(** C1. [translateSubtitle] returns a string for every input and never
    raises; and when the lookup step found nothing, the string
    returned is the original [content] as soon as something throws
    after it: the SRT parser while decoding, or any later step of the
    [try] block, such as a model call that fails. *)
Theorem translateSubtitle_never_raises (net : network)
    (content sourceLang targetLang : str) (w : world) :
  exists s w',
    translateSubtitle parseSRT md5 net content sourceLang targetLang w
      = (Ok s, w') /\
    (lookup_hit (cacheKey_of md5 content sourceLang targetLang) w = None ->
     (detect_format content = srt -> parseSRT content = Thrown ->
      s = content /\ w' = w) /\
     (forall w1,
        translate_attempt parseSRT net content sourceLang targetLang
          (cacheKey_of md5 content sourceLang targetLang) w = (Thrown, w1) ->
        s = content /\ w' = w1)).
Proof.
  destruct (lookup_hit (cacheKey_of md5 content sourceLang targetLang) w)
    as [cached|] eqn:Hit.
  - exists cached, w. split; [|discriminate].
    apply translate_hit. exact Hit.
  - rewrite (translate_miss _ _ _ _ _ _ _ Hit). unfold try_catch.
    destruct (translate_attempt _ _ _ _ _ _ w) as [[s|] w1] eqn:E.
    + exists s, w1. split; [reflexivity|]. intros _. split.
      * intros Hfmt Hthrow. rewrite attempt_no_cues in E.
        -- injection E as <- <-. split; reflexivity.
        -- rewrite Hfmt. unfold parseSubtitleContent. rewrite Hthrow.
           reflexivity.
      * intros w2 [=].
    + exists content, w1. split; [reflexivity|]. intros _. split.
      * intros Hfmt Hthrow. rewrite attempt_no_cues in E; [discriminate|].
        rewrite Hfmt. unfold parseSubtitleContent. rewrite Hthrow.
        reflexivity.
      * intros w2 [= <-]. split; reflexivity.
Qed.

(** C8. When the lookup step finds nothing and decoding yields no cue,
    the call returns [content] and leaves the world as it was: no
    request is sent to the model and nothing is written to the cache. *)
Theorem no_cues_returns_original (net : network)
    (content sourceLang targetLang : str) (w : world) :
  lookup_hit (cacheKey_of md5 content sourceLang targetLang) w = None ->
  parseSubtitleContent parseSRT content (detect_format content) = [] ->
  translateSubtitle parseSRT md5 net content sourceLang targetLang w
    = (Ok content, w).
Proof.
  intros Hit Hno. rewrite (translate_miss _ _ _ _ _ _ _ Hit). unfold try_catch.
  rewrite attempt_no_cues by exact Hno. reflexivity.
Qed.


(** C6, as the code has it. A document that is translated is returned
    in the VTT layout, whatever the format detected for the input: the
    [WEBVTT] header and a blank line, then for each cue its number, the
    line of its start and end around the arrow, its text and a blank
    line, with the start and end that the decoder gave, be it the VTT
    or the SRT one.  The format detected for the document returned is
    VTT, so for an SRT input it is not the format of the input. *)
Theorem translated_document_is_vtt (net : network)
    (content sourceLang targetLang : str) (w : world) :
  let cues := parseSubtitleContent parseSRT content (detect_format content) in
  lookup_hit (cacheKey_of md5 content sourceLang targetLang) w = None ->
  cues <> [] ->
  (forall i b, make_batches cues !! i = Some b ->
     batch_answer net sourceLang targetLang b i <> Thrown) ->
  exists final w',
    translateSubtitle parseSRT md5 net content sourceLang targetLang w
      = (Ok ($"WEBVTT" ++ [nl; nl] ++ body 0 final), w') /\
    Forall2 (fun c c' => start c' = start c /\ end_ c' = end_ c) cues final /\
    detect_format ($"WEBVTT" ++ [nl; nl] ++ body 0 final) = vtt /\
    (detect_format content = srt ->
     detect_format ($"WEBVTT" ++ [nl; nl] ++ body 0 final)
       <> detect_format content).
Proof.
  intros cues Hit Hne Hall.
  destruct (translated_run parseSRT md5 net content sourceLang targetLang w
              Hit Hne Hall) as (tbs & _ & Hrun).
  exists (apply_batches cues tbs). eexists.
  rewrite convertCuesToVTT_body in Hrun. split; [exact Hrun|].
  split; [apply apply_batches_frame|].
  pose proof (header_detected ([nl; nl] ++ body 0 (apply_batches cues tbs)))
    as Hvtt.
  split; [exact Hvtt|]. intros Hsrt. rewrite Hvtt, Hsrt. discriminate.
Qed.

(** C3, as the code has it. When the call of any batch fails hard (the
    request is rejected or the response envelope is malformed), the
    whole call returns the original [content]: the request of every
    batch has been sent, no cue text is replaced and nothing is
    written to the cache. *)
Theorem hard_failure_returns_original (net : network)
    (content sourceLang targetLang : str) (w : world) (i : nat)
    (batch : list cue) :
  let cues := parseSubtitleContent parseSRT content (detect_format content) in
  lookup_hit (cacheKey_of md5 content sourceLang targetLang) w = None ->
  make_batches cues !! i = Some batch ->
  batch_answer net sourceLang targetLang batch i = Thrown ->
  translateSubtitle parseSRT md5 net content sourceLang targetLang w
    = (Ok content,
       add_trace (requests sourceLang targetLang 0 (make_batches cues)) w).
Proof.
  intros cues Hit Hb Hf.
  rewrite (translate_miss _ _ _ _ _ _ _ Hit). unfold try_catch.
  rewrite attempt_thrown; [reflexivity| |].
  - fold cues. intros E. rewrite E, make_batches_nil, lookup_nil in Hb.
    discriminate.
  - apply answers_thrown. exists i, batch. split; assumption.
Qed.

(** C7. After a first call whose last effect was to write the document
    it returned into the cache, the next call with the same arguments
    returns that document from the lookup step and leaves the world
    as it found it: no request is sent to the model, whatever the
    model would have answered.  The same holds for a call made any
    time later while the entry lives, 24 hours. *)
Theorem second_call_uses_cache (net1 net2 : network)
    (content sourceLang targetLang : str) (w w1 : world) (s : str)
    (pre : list event) :
  translateSubtitle parseSRT md5 net1 content sourceLang targetLang w
    = (Ok s, w1) ->
  trace w1
    = trace w ++ pre ++ [CacheSet (cacheKey_of md5 content sourceLang targetLang) s] ->
  translateSubtitle parseSRT md5 net2 content sourceLang targetLang w1
    = (Ok s, w1) /\
  (forall d, (d <= stdTTL * 1000)%N ->
     translateSubtitle parseSRT md5 net2 content sourceLang targetLang
       (later d w1) = (Ok s, later d w1)).
Proof.
  intros Hrun Htrace.
  destruct (translate_ending parseSRT md5 net1 content sourceLang targetLang w)
    as (s' & w' & Hrun' & Hend).
  rewrite Hrun in Hrun'. injection Hrun' as <- <-.
  destruct Hend as [cached Hc|_ Hno|_ _ Hthrown|tbs _ _ Hans].
  - exfalso. apply (f_equal length) in Htrace.
    rewrite !length_app in Htrace. simpl in Htrace. lia.
  - exfalso. apply (f_equal length) in Htrace.
    rewrite !length_app in Htrace. simpl in Htrace. lia.
  - exfalso. simpl in Htrace. apply app_inv_head in Htrace.
    eapply requests_are_model_requests. rewrite Htrace.
    apply in_or_app. right. left. reflexivity.
  - split.
    + apply translate_hit.
      eapply (live_entry_hit _ _ _ (now w + latency net1)%N 0%N).
      * simpl. unfold store_set. apply lookup_insert_eq.
      * apply convertCuesToVTT_truthy.
      * simpl. rewrite N.add_0_r. reflexivity.
      * apply N.le_0_l.
    + intros d Hd. apply translate_hit.
      eapply (live_entry_hit _ _ _ (now w + latency net1)%N d).
      * simpl. unfold store_set. apply lookup_insert_eq.
      * apply convertCuesToVTT_truthy.
      * reflexivity.
      * exact Hd.
Qed.


(** C10. When every batch takes the mismatch fallback, the call still
    stores the document it returns, the re-encoded cues with their
    own texts (written back through [trim], so unchanged for a VTT
    input), in the cache under the key of its arguments; a later call
    with the same arguments returns that document from the cache
    without any request to the model for as long as the entry lives,
    24 hours, after which the lookup finds nothing again. *)
Theorem fallback_document_is_cached (net : network)
    (content sourceLang targetLang : str) (w : world) :
  let cues := parseSubtitleContent parseSRT content (detect_format content) in
  let key := cacheKey_of md5 content sourceLang targetLang in
  let untranslated :=
    convertCuesToVTT (map (fun c => set_text (trim (text c)) c) cues) in
  lookup_hit key w = None ->
  cues <> [] ->
  (forall i b, make_batches cues !! i = Some b ->
     exists t,
       batch_answer net sourceLang targetLang b i = Ok t /\
       length (split separator t) <> length b /\
       length (List.filter (fun line => truthy (trim line)) (split [nl] t))
         < length b) ->
  exists w1,
    translateSubtitle parseSRT md5 net content sourceLang targetLang w
      = (Ok untranslated, w1) /\
    In (CacheSet key untranslated) (trace w1) /\
    cache w1 !! key = Some (untranslated, (now w1 + stdTTL * 1000)%N) /\
    (detect_format content = vtt -> untranslated = convertCuesToVTT cues) /\
    (forall net2 d, (d <= stdTTL * 1000)%N ->
       translateSubtitle parseSRT md5 net2 content sourceLang targetLang
         (later d w1) = (Ok untranslated, later d w1)) /\
    (forall d, (stdTTL * 1000 < d)%N -> lookup_hit key (later d w1) = None).
Proof.
  intros cues key untranslated Hit Hne Hfall.
  assert (Hall : forall i b, make_batches cues !! i = Some b ->
            batch_answer net sourceLang targetLang b i <> Thrown).
  { intros i b Hb. destruct (Hfall i b Hb) as (t & -> & _). discriminate. }
  destruct (translated_run parseSRT md5 net content sourceLang targetLang w
              Hit Hne Hall) as (tbs & Hans & Hrun).
  apply answers_ok in Hans as [Hlen Htbs].
  assert (Hsame : forall i' b', make_batches cues !! i' = Some b' ->
            exists tb', tbs !! i' = Some tb' /\ length tb' = length b').
  { intros i' b' Hb'. destruct (Htbs _ _ Hb') as (t' & _ & E).
    eexists. split; [exact E|]. apply reconcile_length. }
  assert (Hfinal : apply_batches cues tbs
                   = map (fun c => set_text (trim (text c)) c) cues).
  { apply list_eq. intros n. rewrite list_lookup_fmap.
    destruct (cues !! n) as [c|] eqn:Hn; simpl.
    - destruct (batch_cover _ _ _ Hn) as (b & Hb & Hc).
      destruct (Hfall _ _ Hb) as (t & Ht & Hmis & Hshort).
      destruct (Htbs _ _ Hb) as (t' & Ht' & Htb).
      rewrite Ht in Ht'. injection Ht' as <-.
      pose proof (Nat.div_mod_eq n batchSize) as Hdm.
      replace n with (n / batchSize * batchSize + n mod batchSize) at 1 by lia.
      apply (apply_batches_lookup cues tbs _ _ b _ c (text c) Hsame Hb Htb Hc).
      unfold reconcile.
      destruct (Nat.eqb_spec (length (split separator t)) (length b));
        [contradiction|]. cbn [negb].
      rewrite (proj2 (Nat.leb_gt _ _) Hshort), list_lookup_fmap, Hc.
      reflexivity.
    - apply lookup_ge_None. apply lookup_ge_None in Hn.
      rewrite <- (Forall2_length _ _ _ (apply_batches_frame cues tbs)).
      exact Hn. }
  fold cues in Hrun. rewrite Hfinal in Hrun. fold untranslated key in Hrun.
  eexists. split; [exact Hrun|].
  assert (Hentry : forall d,
            cache (later d (after_write net
                     (requests sourceLang targetLang 0 (make_batches cues))
                     key untranslated w)) !! key
            = Some (untranslated, (now w + latency net + stdTTL * 1000)%N)).
  { intros d. simpl. unfold store_set. apply lookup_insert_eq. }
  repeat split.
  - simpl. rewrite !in_app_iff. right. right. left. reflexivity.
  - exact (Hentry 0%N).
  - intros Hfmt. unfold untranslated. f_equal. apply retrim_clean.
    unfold cues. rewrite Hfmt. apply vtt_texts_clean.
  - intros net2 d Hd. apply translate_hit.
    eapply (live_entry_hit _ _ _ (now w + latency net)%N d);
      [apply Hentry|apply convertCuesToVTT_truthy|reflexivity|exact Hd].
  - intros d Hd.
    eapply (expired_entry_miss _ _ _ (now w + latency net)%N d);
      [apply Hentry|reflexivity|exact Hd].
Qed.

End Claims.

(** ** Claims on the codec and on timestamps, and the instances *)

(** Two scenarios: the greeting translated to Greek by a model that
    answers with the four letters of the Greek greeting, and the same
    call with a model that is down. *)
Example greeting_translated :
  fst (translateSubtitle no_srt digest (says [915; 949; 953; 945]%N)
         hello_vtt $"en" $"el" w0)
  = Ok (doc [$"WEBVTT"; $""; $"1"; $"00:00:01.000 --> 00:00:05.000"]
        ++ [nl; 915; 949; 953; 945; nl; nl]%N).
Proof. vm_compute. reflexivity. Qed.

Example greeting_untranslated :
  fst (translateSubtitle no_srt digest down hello_vtt $"en" $"el" w0)
  = Ok hello_vtt.
Proof. vm_compute. reflexivity. Qed.

(** The name of a language in the prompt: for a code of the table, for
    an unknown code, and for a property that the table inherits. *)
Example language_names :
  getLanguageName $"el" = $"Greek" /\
  getLanguageName $"xx" = $"xx" /\
  getLanguageName $"constructor" = $"function Object() { [native code] }".
Proof. repeat split; vm_compute; reflexivity. Qed.

(** The two tiers of the reading of an answer for a batch of two cues:
    one segment per cue, more lines than cues, fewer lines than cues. *)
Example reconcile_tiers :
  let batch := [hello_cue; cue42] in
  reconcile batch ($"Hola" ++ separator ++ $"cuarenta") = [$"Hola"; $"cuarenta"] /\
  reconcile batch (doc [$"Hola"; $""; $"cuarenta"; $"y dos"]) = [$"Hola"; $"cuarenta"] /\
  reconcile batch $"Hola" = [$"Hello"; $"42"].
Proof. repeat split; vm_compute; reflexivity. Qed.

(** An entry is returned up to 24 hours after it was stored, and not
    one millisecond later. *)
Example entry_lifetime :
  let c := store_set 5 $"k" $"v" ∅ in
  store_get (5 + 86400000) $"k" c = Some $"v" /\
  store_get (5 + 86400001) $"k" c = None.
Proof. split; vm_compute; reflexivity. Qed.

(** A NOTE block is skipped up to and including the blank line that
    ends it, and a line of digits is never text. *)
Example note_and_index_skipped :
  parseSubtitleContent no_srt
    (doc [$"WEBVTT"; $""; $"NOTE made by hand"; $"still the note"; $"";
          $"7"; $"00:01.000 --> 00:02.000"; $" Hello "; $"2024"; $"world"])
    vtt
  = [{| start := $"00:01.000"; end_ := $"00:02.000";
        text := $"Hello" ++ [nl] ++ $"world" |}].
Proof. vm_compute. reflexivity. Qed.

(** C2, as the code has it. A cue sequence is read back as it was
    written when the start and end of each cue are timestamps of the
    VTT syntax and each line of its text is a line the parser keeps as
    text: not blank, without outer white space, not [WEBVTT], not
    starting with [NOTE], holding no timing expression and not made of
    digits only. *)
Theorem vtt_roundtrip (parseSRT : str -> result (list cue)) (cues : list cue) :
  forallb cue_ok cues = true ->
  parseSubtitleContent parseSRT (convertCuesToVTT cues) vtt = cues.
Proof.
  intros H. apply parse_encoded. apply List.Forall_forall.
  rewrite forallb_forall in H. exact H.
Qed.

Lemma vtt_roundtrip_witness :
  parseSubtitleContent no_srt (convertCuesToVTT [hello_cue]) vtt = [hello_cue].
Proof. apply (vtt_roundtrip no_srt [hello_cue]). vm_compute. reflexivity. Defined.

(** C2 fails as stated: a cue whose text is a number is valid, and its
    text is taken for a cue index when the document is read back. *)
Lemma roundtrip_loses_numeric_text :
  parseSubtitleContent no_srt (convertCuesToVTT [cue42]) vtt
    = [set_text [] cue42] /\
  parseSubtitleContent no_srt (convertCuesToVTT [cue42]) vtt <> [cue42].
Proof. split; [vm_compute; reflexivity|vm_compute; discriminate]. Qed.

Lemma no_cues_returns_original_witness :
  translateSubtitle no_srt digest (says $"Hola") no_timing_vtt $"en" $"es" w0
    = (Ok no_timing_vtt, w0).
Proof.
  apply (no_cues_returns_original no_srt digest);
    vm_compute; reflexivity.
Defined.



Lemma translated_document_is_vtt_witness :
  exists final w',
    translateSubtitle one_cue_srt digest (says $"Hola") srt_hi $"en" $"es" w0
      = (Ok ($"WEBVTT" ++ [nl; nl] ++ body 0 final), w') /\
    Forall2 (fun c c' => start c' = start c /\ end_ c' = end_ c)
      (parseSubtitleContent one_cue_srt srt_hi (detect_format srt_hi)) final /\
    detect_format ($"WEBVTT" ++ [nl; nl] ++ body 0 final) = vtt /\
    (detect_format srt_hi = srt ->
     detect_format ($"WEBVTT" ++ [nl; nl] ++ body 0 final)
       <> detect_format srt_hi).
Proof.
  apply (translated_document_is_vtt one_cue_srt digest (says $"Hola") srt_hi
           $"en" $"es" w0).
  - vm_compute. reflexivity.
  - vm_compute. discriminate.
  - intros i b _. vm_compute. discriminate.
Defined.

(** C6 fails as stated: an SRT document, read by the parser of the
    [subtitle] package into a cue from millisecond 1000 to millisecond
    2000, is translated and comes back in the VTT layout, under the
    [WEBVTT] header. *)
Lemma srt_input_gets_vtt_output :
  detect_format srt_hi = srt /\
  fst (translateSubtitle one_cue_srt digest (says $"Hola") srt_hi $"en" $"es" w0)
    = Ok (doc [$"WEBVTT"; $""; $"1"; $"1000 --> 2000"; $"Hola"; $""; $""]) /\
  detect_format
    (doc [$"WEBVTT"; $""; $"1"; $"1000 --> 2000"; $"Hola"; $""; $""]) = vtt.
Proof. repeat split; vm_compute; reflexivity. Qed.

Lemma hard_failure_returns_original_witness :
  translateSubtitle no_srt digest down hello_vtt $"en" $"es" w0
    = (Ok hello_vtt,
       add_trace
         (requests $"en" $"es" 0
            (make_batches
               (parseSubtitleContent no_srt hello_vtt (detect_format hello_vtt))))
         w0).
Proof.
  apply (hard_failure_returns_original no_srt digest down hello_vtt
           $"en" $"es" w0 0 [hello_cue]);
    vm_compute; reflexivity.
Defined.

(** C3 fails as stated: with eleven cues, the first batch answered and
    the request of the second rejected, the call returns the original
    document, not the document in which the first ten cues are
    translated. *)
Lemma hard_failure_is_not_batch_local :
  fst (translateSubtitle no_srt digest second_batch_down eleven_vtt
         $"en" $"es" w0) = Ok eleven_vtt /\
  map text (batch_local_cues second_batch_down $"en" $"es"
              (parseSubtitleContent no_srt eleven_vtt vtt))
    = map (fun k => $"T" ++ decimal (N.of_nat k)) (seq 1 10) ++ [$"line 11"] /\
  convertCuesToVTT
    (batch_local_cues second_batch_down $"en" $"es"
       (parseSubtitleContent no_srt eleven_vtt vtt)) <> eleven_vtt.
Proof.
  repeat split; [vm_compute; reflexivity..|vm_compute; discriminate].
Qed.

Lemma second_call_uses_cache_witness :
  translateSubtitle no_srt digest down hello_vtt $"en" $"es"
    (snd (translateSubtitle no_srt digest (says $"Hola") hello_vtt
            $"en" $"es" w0))
  = (Ok (doc [$"WEBVTT"; $""; $"1"; $"00:00:01.000 --> 00:00:05.000";
              $"Hola"; $""; $""]),
     snd (translateSubtitle no_srt digest (says $"Hola") hello_vtt
            $"en" $"es" w0)).
Proof.
  apply (second_call_uses_cache no_srt digest (says $"Hola") down hello_vtt
           $"en" $"es" w0 _ _
           [ModelRequest 0 (batch_prompt $"en" $"es" [hello_cue])]).
  - vm_compute. reflexivity.
  - vm_compute. reflexivity.
Defined.


Lemma fallback_document_is_cached_witness :
  exists w1,
    translateSubtitle no_srt digest (says $"Hola") two_vtt $"en" $"es" w0
      = (Ok (convertCuesToVTT (parseSubtitleContent no_srt two_vtt vtt)), w1) /\
    translateSubtitle no_srt digest down two_vtt $"en" $"es" (later 1000 w1)
      = (Ok (convertCuesToVTT (parseSubtitleContent no_srt two_vtt vtt)),
         later 1000 w1).
Proof.
  destruct (fallback_document_is_cached no_srt digest (says $"Hola") two_vtt
              $"en" $"es" w0)
    as (w1 & Hrun & _ & _ & Hsame & Hagain & _).
  - vm_compute. reflexivity.
  - vm_compute. discriminate.
  - intros [|i] b Hb; vm_compute in Hb; [|discriminate].
    injection Hb as <-. exists $"Hola".
    split; [reflexivity|]. split; vm_compute; [discriminate|lia].
  - pose proof (Hsame eq_refl) as E.
    pose proof (Hagain down 1000%N ltac:(vm_compute; discriminate)) as H2.
    rewrite E in Hrun, H2. exists w1. split; [exact Hrun|exact H2].
Defined.

(** C9, at an input where the code loses a millisecond. Parsing
    [00:00:01,001] gives the number nearest to 1.001, which lies just
    below it; its fractional part times 1000 is just below 1, and
    [Math.floor] makes it 0. Formatting gives [00:00:01,000], and
    parsing that gives 1, not the number first parsed. *)
Theorem srt_timestamp_roundtrip_loses_millisecond :
  Timestamp.formatSrtTimestamp (Timestamp.parseSrtTimestamp $"00:00:01,001")
    = $"00:00:01,000" /\
  PrimFloat.eqb
    (Timestamp.parseSrtTimestamp
       (Timestamp.formatSrtTimestamp
          (Timestamp.parseSrtTimestamp $"00:00:01,001")))
    (Timestamp.parseSrtTimestamp $"00:00:01,001") = false /\
  Timestamp.parseSrtTimestamp
    (Timestamp.formatSrtTimestamp
       (Timestamp.parseSrtTimestamp $"00:00:01,001"))
  <> Timestamp.parseSrtTimestamp $"00:00:01,001".
Proof.
  split; [vm_compute; reflexivity|]. split; [vm_compute; reflexivity|].
  intros E. apply (f_equal FloatOps.Prim2SF) in E. vm_compute in E.
  discriminate E.
Qed.


(** * Further properties of the code

    The partition into batches, the calls and the cache across calls,
    the VTT parser on arbitrary input, the utilities for identifiers
    and retries, and the handlers that call the translator. *)

(** ** The partition into batches *)

Lemma batch_loop_concat (fuel i : nat) (cues : list cue) :
  length cues - i <= fuel ->
  concat (batch_loop fuel i cues) = drop i cues.
Proof.
  revert i. induction fuel as [|fuel IH]; intros i Hfuel.
  - cbn [batch_loop concat]. symmetry. apply drop_ge. lia.
  - cbn [batch_loop]. destruct (Nat.ltb_spec i (length cues)) as [Hlt|Hge].
    + cbn [concat]. rewrite IH by (unfold batchSize; lia).
      unfold slice. replace (i + batchSize - i) with batchSize by lia.
      rewrite <- (drop_drop cues batchSize i). apply take_drop.
    + cbn [concat]. symmetry. apply drop_ge. lia.
Qed.

Lemma make_batches_length (cues : list cue) :
  length (make_batches cues) = (length cues + batchSize - 1) / batchSize.
Proof.
  set (n := length cues). set (k := (n + batchSize - 1) / batchSize).
  assert (Hk : k * batchSize < n + batchSize /\ n <= k * batchSize).
  { unfold k, batchSize.
    pose proof (Nat.div_mod_eq (n + 10 - 1) 10) as E.
    pose proof (Nat.mod_upper_bound (n + 10 - 1) 10 ltac:(discriminate)) as B.
    lia. }
  destruct (Nat.lt_trichotomy (length (make_batches cues)) k) as [H|[H|H]];
    [|exact H|].
  - exfalso.
    assert (Hnone : make_batches cues !! length (make_batches cues) = None)
      by (apply lookup_ge_None; lia).
    assert (Hno : ~ (length (make_batches cues) * batchSize < n)).
    { intros Hlt.
      rewrite (proj2 (make_batches_lookup cues _ (length (make_batches cues)))
                 (conj Hlt eq_refl)) in Hnone.
      discriminate. }
    unfold batchSize in *. lia.
  - exfalso. destruct (lookup_lt_is_Some_2 (make_batches cues) k H) as [b Hb].
    apply make_batches_lookup in Hb as [Hlt _]. fold n in Hlt. lia.
Qed.

(** X1. The batches partition the cues: put end to end they are the cue
    list again, there are as many of them as the cue count divided by
    ten and rounded up, none is empty or longer than ten, and every
    batch but the last holds exactly ten cues. *)
Theorem batches_partition (cues : list cue) :
  concat (make_batches cues) = cues /\
  length (make_batches cues) = (length cues + batchSize - 1) / batchSize /\
  (forall i b, make_batches cues !! i = Some b ->
     0 < length b <= batchSize /\
     (S i < length (make_batches cues) -> length b = batchSize)).
Proof.
  split; [|split].
  - unfold make_batches. rewrite batch_loop_concat by lia. apply drop_0.
  - apply make_batches_length.
  - intros i b Hb. split; [exact (batch_not_empty _ _ _ Hb)|].
    intros Hnext.
    destruct (lookup_lt_is_Some_2 (make_batches cues) (S i) Hnext) as [b' Hb'].
    exact (batch_full _ _ _ _ _ Hb' (Nat.lt_succ_diag_r i) Hb).
Qed.

(** ** Calls, requests and the cache *)

Lemma requests_length (src tgt : str) (i0 : nat) (bs : list (list cue)) :
  length (requests src tgt i0 bs) = length bs.
Proof.
  unfold requests. revert i0. induction bs as [|b bs IH]; intros i0; simpl;
    [reflexivity|]. rewrite IH. reflexivity.
Qed.

Lemma requests_all_requests (src tgt : str) (i0 : nat) (bs : list (list cue)) :
  List.filter is_request (requests src tgt i0 bs) = requests src tgt i0 bs.
Proof.
  unfold requests. revert i0. induction bs as [|b bs IH]; intros i0; simpl;
    [reflexivity|]. rewrite IH. reflexivity.
Qed.

(** A key that misses keeps missing while the cache is not written. *)
Lemma lookup_hit_stays_none (key : str) (w : world) (evs : list event) (d : N) :
  lookup_hit key w = None ->
  lookup_hit key (later d (add_trace evs w)) = None.
Proof.
  unfold lookup_hit, store_get. simpl.
  destruct (cache w !! key) as [[v expires]|]; [|reflexivity].
  destruct (N.ltb_spec expires (now w)) as [Hlt|Hge].
  - intros _. rewrite (proj2 (N.ltb_lt _ _)) by lia. reflexivity.
  - destruct (truthy v) eqn:Ev; [discriminate|]. intros _.
    destruct (expires <? now w + d)%N; [reflexivity|]. rewrite Ev. reflexivity.
Qed.

Lemma app_sep_inj (x : char) (a a' b b' : str) :
  ~ In x a -> ~ In x a' -> a ++ x :: b = a' ++ x :: b' -> a = a' /\ b = b'.
Proof.
  revert a'. induction a as [|c a IH]; intros [|c' a'] Ha Ha' E; simpl in E.
  - injection E as ->. split; reflexivity.
  - injection E as <- _. exfalso. apply Ha'. left; reflexivity.
  - injection E as -> _. exfalso. apply Ha. left; reflexivity.
  - injection E as <- E. destruct (IH a') as [-> ->]; auto.
    + intros H. apply Ha. right; exact H.
    + intros H. apply Ha'. right; exact H.
Qed.

Section CallFacts.

Variable parseSRT : str -> result (list cue).
Variable md5 : str -> str.

(** X2. When every batch is answered and the answer to batch [i] splits
    on the separator into as many segments as the batch has cues, cue
    [j] of that batch, which is cue [10 i + j] of the document, carries
    the trimmed [j]-th segment, whatever shape the answers to the other
    batches have. *)
Theorem segments_written_in_order (net : network)
    (content sourceLang targetLang : str) (w : world) (i : nat)
    (batch : list cue) (t : str) :
  let cues := parseSubtitleContent parseSRT content (detect_format content) in
  lookup_hit (cacheKey_of md5 content sourceLang targetLang) w = None ->
  (forall i' b', make_batches cues !! i' = Some b' ->
     batch_answer net sourceLang targetLang b' i' <> Thrown) ->
  make_batches cues !! i = Some batch ->
  batch_answer net sourceLang targetLang batch i = Ok t ->
  length (split separator t) = length batch ->
  exists final w',
    translateSubtitle parseSRT md5 net content sourceLang targetLang w
      = (Ok (convertCuesToVTT final), w') /\
    forall j c, batch !! j = Some c ->
      exists segment,
        split separator t !! j = Some segment /\
        final !! (i * batchSize + j) = Some (set_text (trim segment) c).
Proof.
  intros cues Hit Hall Hb Ht Hmatch.
  assert (Hne : cues <> []).
  { intros E. rewrite E, make_batches_nil, lookup_nil in Hb. discriminate. }
  destruct (translated_run parseSRT md5 net content sourceLang targetLang w
              Hit Hne Hall) as (tbs & Hans & Hrun).
  exists (apply_batches cues tbs). eexists. split; [exact Hrun|].
  apply answers_ok in Hans as [Hlen Htbs].
  assert (Hsame : forall i' b', make_batches cues !! i' = Some b' ->
            exists tb', tbs !! i' = Some tb' /\ length tb' = length b').
  { intros i' b' Hb'. destruct (Htbs _ _ Hb') as (t' & _ & E).
    eexists. split; [exact E|]. apply reconcile_length. }
  destruct (Htbs _ _ Hb) as (t' & Ht' & Htb).
  rewrite Ht in Ht'. injection Ht' as <-.
  assert (Hrec : reconcile batch t = split separator t).
  { unfold reconcile. rewrite (proj2 (Nat.eqb_eq _ _) Hmatch). reflexivity. }
  intros j c Hc.
  pose proof (lookup_lt_Some _ _ _ Hc) as Hj.
  destruct (lookup_lt_is_Some_2 (split separator t) j ltac:(lia))
    as [segment Hseg].
  exists segment. split; [exact Hseg|].
  apply (apply_batches_lookup cues tbs i j batch _ c segment Hsame Hb Htb Hc).
  rewrite Hrec. exact Hseg.
Qed.

(** X3. A call leaves every cache entry but its own as it was.  Its own
    entry is left as it was too, or holds the document that the call
    returns, to expire twenty-four hours after the time of the write. *)
Theorem call_keeps_other_entries (net : network)
    (content sourceLang targetLang : str) (w : world) :
  exists s w',
    translateSubtitle parseSRT md5 net content sourceLang targetLang w
      = (Ok s, w') /\
    (forall k, k <> cacheKey_of md5 content sourceLang targetLang ->
       cache w' !! k = cache w !! k) /\
    (cache w' !! cacheKey_of md5 content sourceLang targetLang
       = cache w !! cacheKey_of md5 content sourceLang targetLang \/
     cache w' !! cacheKey_of md5 content sourceLang targetLang
       = Some (s, (now w' + stdTTL * 1000)%N)).
Proof.
  destruct (translate_ending parseSRT md5 net content sourceLang targetLang w)
    as (s & w' & Hrun & Hend).
  exists s, w'. split; [exact Hrun|].
  destruct Hend; try (split; [reflexivity|left; reflexivity]).
  split.
  - intros k Hk. simpl. unfold store_set. apply lookup_insert_ne. congruence.
  - right. simpl. unfold store_set. apply lookup_insert_eq.
Qed.

(** X4. A failure is not remembered.  After a call in which the request
    of some batch failed, the key still misses at any later time, and
    the next call for the same document sends the requests of all the
    batches again; answered this time, it returns a translated document
    and stores it. *)
Theorem failed_call_is_retried (net1 net2 : network)
    (content sourceLang targetLang : str) (w : world) (i : nat)
    (batch : list cue) (d : N) :
  let cues := parseSubtitleContent parseSRT content (detect_format content) in
  let w1 :=
    snd (translateSubtitle parseSRT md5 net1 content sourceLang targetLang w) in
  lookup_hit (cacheKey_of md5 content sourceLang targetLang) w = None ->
  make_batches cues !! i = Some batch ->
  batch_answer net1 sourceLang targetLang batch i = Thrown ->
  (forall i' b', make_batches cues !! i' = Some b' ->
     batch_answer net2 sourceLang targetLang b' i' <> Thrown) ->
  lookup_hit (cacheKey_of md5 content sourceLang targetLang) (later d w1) = None /\
  exists final w2,
    translateSubtitle parseSRT md5 net2 content sourceLang targetLang (later d w1)
      = (Ok (convertCuesToVTT final), w2) /\
    trace w2
      = trace w1 ++ requests sourceLang targetLang 0 (make_batches cues)
        ++ [CacheSet (cacheKey_of md5 content sourceLang targetLang)
              (convertCuesToVTT final)].
Proof.
  intros cues w1 Hit Hb Hf Hall2.
  assert (Hne : cues <> []).
  { intros E. rewrite E, make_batches_nil, lookup_nil in Hb. discriminate. }
  assert (Hw1 : w1 = add_trace (requests sourceLang targetLang 0
                                  (make_batches cues)) w).
  { unfold w1. rewrite (translate_miss _ _ _ _ _ _ _ Hit). unfold try_catch.
    rewrite attempt_thrown; [reflexivity|exact Hne|].
    apply answers_thrown. exists i, batch. split; assumption. }
  assert (Hmiss : lookup_hit (cacheKey_of md5 content sourceLang targetLang)
                    (later d w1) = None).
  { rewrite Hw1. apply lookup_hit_stays_none. exact Hit. }
  split; [exact Hmiss|].
  destruct (translated_run parseSRT md5 net2 content sourceLang targetLang
              (later d w1) Hmiss Hne Hall2) as (tbs & _ & Hrun).
  eexists _, _. split; [exact Hrun|]. reflexivity.
Qed.

(** X5. What a call does is one request per batch, in the order of the
    batches, followed by at most one cache write, which stores the
    returned document under the key of the call.  A call that hits the
    cache does nothing; a call that misses sends as many requests as
    the cue count divided by ten and rounded up, answered or not. *)
Theorem one_request_per_batch (net : network)
    (content sourceLang targetLang : str) (w : world) :
  let key := cacheKey_of md5 content sourceLang targetLang in
  let cues := parseSubtitleContent parseSRT content (detect_format content) in
  exists s w' sent writes,
    translateSubtitle parseSRT md5 net content sourceLang targetLang w
      = (Ok s, w') /\
    trace w' = trace w ++ sent ++ writes /\
    (writes = [] \/ writes = [CacheSet key s]) /\
    (lookup_hit key w <> None -> sent = [] /\ writes = []) /\
    (lookup_hit key w = None ->
       sent = requests sourceLang targetLang 0 (make_batches cues) /\
       length sent = (length cues + batchSize - 1) / batchSize).
Proof.
  intros key cues.
  assert (Hcount : length (requests sourceLang targetLang 0 (make_batches cues))
                   = (length cues + batchSize - 1) / batchSize).
  { rewrite requests_length. apply make_batches_length. }
  destruct (translate_ending parseSRT md5 net content sourceLang targetLang w)
    as (s & w' & Hrun & Hend).
  exists s, w'.
  destruct Hend as [cached Hit|Hit Hnil|Hit Hne Hans|tbs Hit Hne Hans];
    fold key in Hit.
  - exists [], []. split; [exact Hrun|]. split; [symmetry; apply app_nil_r|].
    split; [left; reflexivity|]. split; [split; reflexivity|]. congruence.
  - exists [], []. split; [exact Hrun|]. split; [symmetry; apply app_nil_r|].
    split; [left; reflexivity|]. split; [split; reflexivity|].
    intros _. fold cues in Hnil. rewrite Hnil. split; reflexivity.
  - exists (requests sourceLang targetLang 0 (make_batches cues)), [].
    split; [exact Hrun|]. split; [simpl; rewrite app_nil_r; reflexivity|].
    split; [left; reflexivity|]. split; [congruence|].
    intros _. split; [reflexivity|exact Hcount].
  - exists (requests sourceLang targetLang 0 (make_batches cues)),
      [CacheSet key (convertCuesToVTT (apply_batches cues tbs))].
    split; [exact Hrun|]. split; [reflexivity|].
    split; [right; reflexivity|]. split; [congruence|].
    intros _. split; [reflexivity|exact Hcount].
Qed.

(** X6. The cache key tells the language pair: when the digests and the
    source languages hold no underscore, two calls share a key only if
    the digests of their documents, their source languages and their
    target languages are the same. *)
Theorem cacheKey_tells_languages (c1 c2 s1 s2 t1 t2 : str) :
  ~ In 95%N (md5 c1) -> ~ In 95%N (md5 c2) ->
  ~ In 95%N s1 -> ~ In 95%N s2 ->
  cacheKey_of md5 c1 s1 t1 = cacheKey_of md5 c2 s2 t2 ->
  md5 c1 = md5 c2 /\ s1 = s2 /\ t1 = t2.
Proof.
  unfold cacheKey_of. intros H1 H2 H3 H4 E.
  change ($"_") with [95%N] in E. simpl in E.
  apply app_sep_inj in E as [E1 E]; [|assumption..].
  apply app_sep_inj in E as [E2 E3]; [|assumption..].
  auto.
Qed.

End CallFacts.

Lemma segments_written_in_order_witness :
  exists final w',
    translateSubtitle no_srt digest (says hola_mundo) two_vtt $"en" $"es" w0
      = (Ok (convertCuesToVTT final), w') /\
    forall j c,
      parseSubtitleContent no_srt two_vtt vtt !! j = Some c ->
      exists segment,
        split separator hola_mundo !! j = Some segment /\
        final !! (0 * batchSize + j) = Some (set_text (trim segment) c).
Proof.
  apply (segments_written_in_order no_srt digest (says hola_mundo) two_vtt
           $"en" $"es" w0 0 (parseSubtitleContent no_srt two_vtt vtt)
           hola_mundo).
  - vm_compute. reflexivity.
  - intros i b _. vm_compute. discriminate.
  - vm_compute. reflexivity.
  - vm_compute. reflexivity.
  - vm_compute. reflexivity.
Defined.

Lemma failed_call_is_retried_witness :
  lookup_hit (cacheKey_of digest hello_vtt $"en" $"es")
    (later 1000
       (snd (translateSubtitle no_srt digest down hello_vtt $"en" $"es" w0)))
    = None /\
  exists final w2,
    translateSubtitle no_srt digest (says $"Hola") hello_vtt $"en" $"es"
      (later 1000
         (snd (translateSubtitle no_srt digest down hello_vtt $"en" $"es" w0)))
      = (Ok (convertCuesToVTT final), w2) /\
    trace w2
      = trace (snd (translateSubtitle no_srt digest down hello_vtt
                      $"en" $"es" w0))
        ++ requests $"en" $"es" 0
             (make_batches
                (parseSubtitleContent no_srt hello_vtt (detect_format hello_vtt)))
        ++ [CacheSet (cacheKey_of digest hello_vtt $"en" $"es")
              (convertCuesToVTT final)].
Proof.
  apply (failed_call_is_retried no_srt digest down (says $"Hola") hello_vtt
           $"en" $"es" w0 0 [hello_cue] 1000%N).
  - vm_compute. reflexivity.
  - vm_compute. reflexivity.
  - vm_compute. reflexivity.
  - intros i b _. vm_compute. discriminate.
Defined.

Lemma cacheKey_tells_languages_witness :
  digest $"Hello" = digest $"World" /\ $"en" = $"en" /\ $"es" = $"es".
Proof.
  apply (cacheKey_tells_languages digest $"Hello" $"World"
           $"en" $"en" $"es" $"es").
  - vm_compute. intuition discriminate.
  - vm_compute. intuition discriminate.
  - vm_compute. intuition discriminate.
  - vm_compute. intuition discriminate.
  - vm_compute. reflexivity.
Defined.

(** ** Cues decoded from VTT: what they are and where they come from *)

Lemma parse_lines_count (lines : list str) :
  forall cur acc,
    length (parse_lines lines cur acc)
      <= length (push cur acc)
         + length (List.filter has_timing (map trim lines)) /\
    length (skip_note lines cur acc)
      <= length (push cur acc)
         + length (List.filter has_timing (map trim lines)).
Proof.
  induction lines as [|raw rest IH]; intros cur acc.
  - split; simpl; lia.
  - assert (Hmono : forall cur' acc',
              length (push cur' acc') <= length (push cur acc) ->
              length (parse_lines rest cur' acc')
              <= length (push cur acc)
                 + length (List.filter has_timing (map trim (raw :: rest)))).
    { intros cur' acc' Hle. destruct (IH cur' acc') as [IH1 _].
      cbn [map List.filter]. destruct (has_timing (trim raw)); simpl; lia. }
    split.
    + rewrite parse_lines_cons. cbv zeta.
      destruct (negb (truthy (trim raw)) || str_eqb (trim raw) $"WEBVTT");
        [apply Hmono; lia|].
      destruct (startsWith $"NOTE" (trim raw)).
      { destruct (IH cur acc) as [_ IH2].
        cbn [map List.filter]. destruct (has_timing (trim raw)); simpl; lia. }
      destruct (timingMatch (trim raw)) as [[g1 g2]|] eqn:E3.
      * destruct (IH (Some {| start := g1; end_ := g2; text := [] |})
                    (push cur acc)) as [IH1 _].
        cbn [map List.filter]. unfold has_timing at 1. rewrite E3.
        cbn [push] in IH1. rewrite length_app in IH1. simpl in *. lia.
      * destruct cur as [c|]; [|apply Hmono; lia].
        destruct (negb (all_digits (trim raw))); [|apply Hmono; lia].
        apply Hmono. cbn [push]. rewrite !length_app. simpl. lia.
    + cbn [skip_note]. destruct (truthy (trim raw)).
      * destruct (IH cur acc) as [_ IH2].
        cbn [map List.filter]. destruct (has_timing (trim raw)); simpl; lia.
      * apply Hmono; lia.
Qed.

Section ParserFacts.

Variable parseSRT : str -> result (list cue).

(** X7. Whatever the VTT document, every cue decoded from it has a start
    and an end of the VTT timestamp syntax and a text without outer
    white space; the text is empty, or each of its lines is a line that
    the parser takes as text: not blank, trimmed, not [WEBVTT], not
    starting with [NOTE], holding no timing and not made of digits
    only. *)
Theorem vtt_cues_are_decoded_cues (content : str) (c : cue) :
  In c (parseSubtitleContent parseSRT content vtt) ->
  is_vtt_timestamp (start c) = true /\
  is_vtt_timestamp (end_ c) = true /\
  trim (text c) = text c /\
  (text c <> [] -> forall l, In l (split [nl] (text c)) -> text_line l = true).
Proof.
  intros Hin.
  pose proof (vtt_cues_decoded parseSRT content) as H.
  pose proof (vtt_texts_clean parseSRT content) as Hclean.
  rewrite List.Forall_forall in H, Hclean.
  specialize (H c Hin). specialize (Hclean c Hin).
  unfold decoded_cue in H. apply andb_true_iff in H as [H Ht].
  apply andb_true_iff in H as [Hs He].
  repeat split; try assumption.
  intros Hne. apply forallb_forall.
  destruct (text c); [congruence|exact Ht].
Qed.

(** X8. Decoding reaches a fixed point at once: the cues decoded from
    any VTT document, encoded and decoded again, are the same cues,
    cues with an empty text included. *)
Theorem decoded_document_is_stable (content : str) :
  parseSubtitleContent parseSRT
    (convertCuesToVTT (parseSubtitleContent parseSRT content vtt)) vtt
  = parseSubtitleContent parseSRT content vtt.
Proof. apply parse_encoded_decoded, vtt_cues_decoded. Qed.

(** X9. A cue is started by a timing line only: a VTT document has at
    most as many cues as it has lines holding a timing, and none when
    no line holds one. *)
Theorem cues_come_from_timing_lines (content : str) :
  length (parseSubtitleContent parseSRT content vtt)
    <= length (List.filter has_timing (trimmed_lines content)) /\
  (List.filter has_timing (trimmed_lines content) = [] ->
   parseSubtitleContent parseSRT content vtt = []).
Proof.
  assert (H : length (parseSubtitleContent parseSRT content vtt)
              <= length (List.filter has_timing (trimmed_lines content))).
  { unfold parseSubtitleContent, trimmed_lines.
    destruct (parse_lines_count (split [nl] content) None []) as [H _].
    exact H. }
  split; [exact H|]. intros E. rewrite E in H.
  destruct (parseSubtitleContent parseSRT content vtt); [reflexivity|].
  simpl in H. lia.
Qed.

End ParserFacts.

Lemma vtt_cues_are_decoded_cues_witness :
  is_vtt_timestamp (start hello_cue) = true /\
  is_vtt_timestamp (end_ hello_cue) = true /\
  trim (text hello_cue) = text hello_cue /\
  (text hello_cue <> [] ->
   forall l, In l (split [nl] (text hello_cue)) -> text_line l = true).
Proof.
  apply (vtt_cues_are_decoded_cues no_srt hello_vtt hello_cue).
  vm_compute. left. reflexivity.
Defined.

(** ** IMDb identifiers *)

Lemma digit_run_digits (s : str) : forallb is_digit (digit_run s) = true.
Proof.
  induction s as [|c s IH]; simpl; [reflexivity|].
  destruct (is_digit c) eqn:E; simpl; [rewrite E; exact IH|reflexivity].
Qed.

Lemma digit_run_app (d rest : str) :
  forallb is_digit d = true ->
  match rest with c :: _ => is_digit c = false | [] => True end ->
  digit_run (d ++ rest) = d.
Proof.
  intros Hd Hr. induction d as [|c d IH]; simpl.
  - destruct rest as [|c rest]; [reflexivity|]. simpl. rewrite Hr. reflexivity.
  - simpl in Hd. apply andb_true_iff in Hd as [Hc Hd].
    rewrite Hc, (IH Hd). reflexivity.
Qed.

Lemma digit_run_split (s : str) :
  exists rest, s = digit_run s ++ rest /\
    match rest with c :: _ => is_digit c = false | [] => True end.
Proof.
  induction s as [|c s (rest & E & H)]; simpl.
  - exists []. split; [reflexivity|exact I].
  - destruct (is_digit c) eqn:Ec.
    + exists rest. split; [simpl; f_equal; exact E|exact H].
    + exists (c :: s). split; [reflexivity|exact Ec].
Qed.

Lemma digit_not_t (c : char) : is_digit c = true -> is_t c = false.
Proof.
  unfold is_digit, is_t. intros H. apply andb_true_iff in H as [H1 H2].
  apply N.leb_le in H1, H2. apply orb_false_iff.
  split; apply N.eqb_neq; lia.
Qed.

Lemma digits7_digits (d rest : str) :
  forallb is_digit d = true -> 7 <= length d ->
  match rest with c :: _ => is_digit c = false | [] => True end ->
  digits7 (d ++ rest) = Some d.
Proof.
  intros Hd Hl Hr. unfold digits7. rewrite (digit_run_app _ _ Hd Hr).
  rewrite (proj2 (Nat.leb_le _ _) Hl). reflexivity.
Qed.

Lemma digits7_inv (s d : str) :
  digits7 s = Some d ->
  forallb is_digit d = true /\ 7 <= length d /\
  exists rest, s = d ++ rest /\
    match rest with c :: _ => is_digit c = false | [] => True end.
Proof.
  unfold digits7. destruct (Nat.leb_spec 7 (length (digit_run s))) as [Hl|];
    [|discriminate].
  intros [= <-]. split; [apply digit_run_digits|]. split; [exact Hl|].
  apply digit_run_split.
Qed.

Lemma imdbRegex_digits (d rest : str) :
  forallb is_digit d = true -> 7 <= length d ->
  match rest with c :: _ => is_digit c = false | [] => True end ->
  imdbRegex (d ++ rest) = Some d.
Proof.
  intros Hd Hl Hr. pose proof (digits7_digits d rest Hd Hl Hr) as E.
  destruct d as [|c1 [|c2 d]]; [simpl in Hl; lia..|].
  simpl in Hd. apply andb_true_iff in Hd as [H1 _].
  cbn [app imdbRegex]. rewrite (digit_not_t _ H1). exact E.
Qed.

Lemma imdbRegex_tt (c1 c2 : char) (d rest : str) :
  is_t c1 = true -> is_t c2 = true ->
  forallb is_digit d = true -> 7 <= length d ->
  match rest with c :: _ => is_digit c = false | [] => True end ->
  imdbRegex (c1 :: c2 :: d ++ rest) = Some d.
Proof.
  intros H1 H2 Hd Hl Hr. cbn [imdbRegex]. rewrite H1, H2.
  rewrite (digits7_digits d rest Hd Hl Hr). reflexivity.
Qed.

Lemma imdbRegex_inv (id d : str) :
  imdbRegex id = Some d ->
  forallb is_digit d = true /\ 7 <= length d /\
  exists pre rest,
    id = pre ++ d ++ rest /\
    (pre = [] \/
     exists c1 c2, pre = [c1; c2] /\ is_t c1 = true /\ is_t c2 = true) /\
    match rest with c :: _ => is_digit c = false | [] => True end.
Proof.
  assert (Hplain : digits7 id = Some d ->
    forallb is_digit d = true /\ 7 <= length d /\
    exists pre rest,
      id = pre ++ d ++ rest /\
      (pre = [] \/
       exists c1 c2, pre = [c1; c2] /\ is_t c1 = true /\ is_t c2 = true) /\
      match rest with c :: _ => is_digit c = false | [] => True end).
  { intros H. apply digits7_inv in H as (Hd & Hl & rest & E & Hr).
    split; [exact Hd|]. split; [exact Hl|].
    exists [], rest. split; [exact E|]. split; [left; reflexivity|exact Hr]. }
  destruct id as [|c1 [|c2 rest]]; try exact Hplain.
  cbn [imdbRegex]. destruct (is_t c1 && is_t c2) eqn:Et; [|exact Hplain].
  destruct (digits7 rest) as [d'|] eqn:E7; [|exact Hplain].
  intros [= <-]. apply digits7_inv in E7 as (Hd & Hl & rest' & E & Hr).
  apply andb_true_iff in Et as [H1 H2].
  split; [exact Hd|]. split; [exact Hl|].
  exists [c1; c2], rest'. split; [simpl; f_equal; f_equal; exact E|].
  split; [right; eauto|exact Hr].
Qed.

(** X10. [parseImdbId] accepts a run of at least seven digits, with or
    without a leading [tt] in either case of the letters, and returns
    the digits behind a lower-case [tt]; whatever follows the run of
    digits is ignored. *)
Theorem parseImdbId_accepts (pre digits rest : str) :
  pre = [] \/
  (exists c1 c2, pre = [c1; c2] /\ is_t c1 = true /\ is_t c2 = true) ->
  forallb is_digit digits = true -> 7 <= length digits ->
  match rest with c :: _ => is_digit c = false | [] => True end ->
  parseImdbId (pre ++ digits ++ rest) = Some ($"tt" ++ digits).
Proof.
  intros Hpre Hd Hl Hr. unfold parseImdbId.
  destruct Hpre as [->|(c1 & c2 & -> & H1 & H2)].
  - cbn [app]. rewrite (imdbRegex_digits _ _ Hd Hl Hr). reflexivity.
  - cbn [app]. rewrite (imdbRegex_tt _ _ _ _ H1 H2 Hd Hl Hr). reflexivity.
Qed.

(** X11. What [parseImdbId] returns is a normal form: it is [tt] and at
    least seven digits, the digits that stand at the head of the
    identifier or behind its leading [tt], and parsing it again returns
    it unchanged. *)
Theorem parseImdbId_normalises (id r : str) :
  parseImdbId id = Some r ->
  parseImdbId r = Some r /\
  exists pre digits rest,
    id = pre ++ digits ++ rest /\ r = $"tt" ++ digits /\
    (pre = [] \/
     exists c1 c2, pre = [c1; c2] /\ is_t c1 = true /\ is_t c2 = true) /\
    forallb is_digit digits = true /\ 7 <= length digits /\
    match rest with c :: _ => is_digit c = false | [] => True end.
Proof.
  unfold parseImdbId at 1.
  destruct (imdbRegex id) as [d|] eqn:E; [|discriminate].
  intros Hsome. assert (r = $"tt" ++ d) as -> by congruence. clear Hsome.
  apply imdbRegex_inv in E as (Hd & Hl & pre & rest & E & Hpre & Hr).
  split.
  - unfold parseImdbId.
    pose proof (imdbRegex_tt 116%N 116%N d [] eq_refl eq_refl Hd Hl I) as Ett.
    rewrite app_nil_r in Ett.
    change (116%N :: 116%N :: d) with ($"tt" ++ d) in Ett.
    rewrite Ett. reflexivity.
  - exists pre, d, rest. repeat split; assumption.
Qed.

Lemma parseImdbId_accepts_witness :
  parseImdbId ($"Tt" ++ $"1234567" ++ $":1:2") = Some ($"tt" ++ $"1234567").
Proof.
  apply (parseImdbId_accepts $"Tt" $"1234567" $":1:2").
  - right. exists 84%N, 116%N. repeat split; reflexivity.
  - vm_compute. reflexivity.
  - vm_compute. lia.
  - vm_compute. reflexivity.
Defined.

Lemma parseImdbId_normalises_witness :
  parseImdbId $"tt0111161" = Some $"tt0111161" /\
  exists pre digits rest,
    $"0111161.srt" = pre ++ digits ++ rest /\ $"tt0111161" = $"tt" ++ digits /\
    (pre = [] \/
     exists c1 c2, pre = [c1; c2] /\ is_t c1 = true /\ is_t c2 = true) /\
    forallb is_digit digits = true /\ 7 <= length digits /\
    match rest with c :: _ => is_digit c = false | [] => True end.
Proof.
  apply (parseImdbId_normalises $"0111161.srt" $"tt0111161").
  vm_compute. reflexivity.
Defined.

(** ** Retrying with exponential backoff *)

Lemma increment_exact (calls : nat) :
  (N.of_nat calls < exact_below)%N ->
  increment (N.of_nat calls) = N.of_nat (S calls).
Proof.
  intros H. unfold increment. rewrite (proj2 (N.ltb_lt _ _) H). lia.
Qed.

Lemma backoff_length (baseDelay : Timestamp.number) (from count : nat) :
  length (backoff baseDelay from count) = count.
Proof.
  revert from. induction count as [|c IH]; intros from; simpl;
    [reflexivity|]. rewrite IH. reflexivity.
Qed.

Lemma backoff_lookup (baseDelay : Timestamp.number) (from count i : nat) :
  i < count ->
  backoff baseDelay from count !! i
  = Some (PrimFloat.mul baseDelay (pow2 (N.of_nat (from + i)))).
Proof.
  revert from i. induction count as [|c IH]; intros from i Hi; [lia|].
  destruct i as [|i]; cbn [backoff].
  - rewrite Nat.add_0_r. reflexivity.
  - rewrite lookup_cons_ne_0 by lia. simpl Nat.pred.
    rewrite IH by lia. do 4 f_equal. lia.
Qed.

(** Every operation meets one of the two: it returns at a call within
    the first [maxRetries + 1], or it fails at all of them. *)
Lemma first_success_or_none {A E : Type} (operation : nat -> settled A E)
    (n : nat) :
  (exists k a, k <= n /\ operation k = Fulfilled a /\
     forall i, i < k -> exists e, operation i = Failure e) \/
  (forall i, i <= n -> exists e, operation i = Failure e).
Proof.
  induction n as [|n [(k & a & Hk & Ha & Hf)|Hall]].
  - destruct (operation 0) as [a|e] eqn:E0.
    + left. exists 0, a. split; [lia|]. split; [exact E0|]. intros i Hi. lia.
    + right. intros i Hi. replace i with 0 by lia. eauto.
  - left. exists k, a. split; [lia|]. split; assumption.
  - destruct (operation (S n)) as [a|e] eqn:En.
    + left. exists (S n), a. split; [lia|]. split; [exact En|].
      intros i Hi. apply Hall. lia.
    + right. intros i Hi. destruct (Nat.eq_dec i (S n)) as [->|Hne];
        [eauto|]. apply Hall. lia.
Qed.

Section RetryFacts.

Context {A E : Type}.
Variable operation : nat -> settled A E.
Variable maxRetries : N.
Variable baseDelay : Timestamp.number.

Hypothesis counter_exact : (maxRetries < exact_below)%N.

(** One failure that leaves room for a retry: the counter follows the
    calls, and the delay is the one of the call. *)
Lemma retry_loop_failure (fuel calls : nat) (e : E) :
  operation calls = Failure e ->
  (N.of_nat (S calls) <= maxRetries)%N ->
  retry_loop operation maxRetries baseDelay (S fuel) calls (N.of_nat calls)
  = match retry_loop operation maxRetries baseDelay fuel (S calls)
            (N.of_nat (S calls)) with
    | Some (r, delays) =>
        Some (r, PrimFloat.mul baseDelay (pow2 (N.of_nat calls)) :: delays)
    | None => None
    end.
Proof.
  intros He Hle. cbn [retry_loop]. rewrite He.
  rewrite increment_exact by lia.
  rewrite (proj2 (N.ltb_ge _ _) Hle).
  replace (N.of_nat (S calls) - 1)%N with (N.of_nat calls) by lia.
  reflexivity.
Qed.

(** The failure that leaves no room. *)
Lemma retry_loop_last_failure (fuel calls : nat) (e : E) :
  operation calls = Failure e ->
  N.of_nat calls = maxRetries ->
  retry_loop operation maxRetries baseDelay (S fuel) calls (N.of_nat calls)
  = Some (Failure e, []).
Proof.
  intros He Hle. cbn [retry_loop]. rewrite He.
  rewrite increment_exact by lia.
  rewrite (proj2 (N.ltb_lt maxRetries (N.of_nat (S calls)))) by lia.
  reflexivity.
Qed.

(** How the loop proceeds through [k] failures in a row. *)
Lemma retry_loop_failures (k : nat) :
  forall fuel calls,
    (forall i, calls <= i < calls + k -> exists e, operation i = Failure e) ->
    (N.of_nat (calls + k) <= maxRetries)%N ->
    retry_loop operation maxRetries baseDelay (k + fuel) calls (N.of_nat calls)
    = match retry_loop operation maxRetries baseDelay fuel (calls + k)
              (N.of_nat (calls + k)) with
      | Some (r, delays) => Some (r, backoff baseDelay calls k ++ delays)
      | None => None
      end.
Proof.
  induction k as [|k IH]; intros fuel calls Hfail Hle.
  - rewrite Nat.add_0_r. cbn [Nat.add backoff app].
    destruct (retry_loop operation maxRetries baseDelay fuel calls
                (N.of_nat calls)) as [[r ds]|]; reflexivity.
  - destruct (Hfail calls ltac:(lia)) as [e He].
    change (S k + fuel) with (S (k + fuel)).
    rewrite (retry_loop_failure _ _ _ He) by lia.
    rewrite (IH fuel (S calls)); [|intros i Hi; apply Hfail; lia|lia].
    replace (S calls + k) with (calls + S k) by lia.
    cbn [backoff].
    destruct (retry_loop operation maxRetries baseDelay fuel (calls + S k)
                (N.of_nat (calls + S k))) as [[r ds]|]; reflexivity.
Qed.

(** The call that returns after [k] failures. *)
Lemma retry_run_fulfilled (k : nat) (a : A) (fuel : nat) :
  (forall i, i < k -> exists e, operation i = Failure e) ->
  operation k = Fulfilled a ->
  (N.of_nat k <= maxRetries)%N ->
  k < fuel ->
  retryWithExponentialBackoff operation maxRetries baseDelay fuel
  = Some (Fulfilled a, backoff baseDelay 0 k).
Proof.
  intros Hfail Hok Hle Hfuel. unfold retryWithExponentialBackoff.
  replace fuel with (k + S (fuel - S k)) by lia.
  rewrite (retry_loop_failures k _ 0); [|intros i Hi; apply Hfail; lia|exact Hle].
  cbn [Nat.add retry_loop]. rewrite Hok, app_nil_r. reflexivity.
Qed.

(** The call that throws after [maxRetries + 1] failures. *)
Lemma retry_run_exhausted (k : nat) (e : E) (fuel : nat) :
  (forall i, i < k -> exists e', operation i = Failure e') ->
  operation k = Failure e ->
  N.of_nat k = maxRetries ->
  k < fuel ->
  retryWithExponentialBackoff operation maxRetries baseDelay fuel
  = Some (Failure e, backoff baseDelay 0 k).
Proof.
  intros Hfail Hlast Hk Hfuel. unfold retryWithExponentialBackoff.
  replace fuel with (k + S (fuel - S k)) by lia.
  rewrite (retry_loop_failures k _ 0); [|intros i Hi; apply Hfail; lia|lia].
  cbn [Nat.add]. rewrite (retry_loop_last_failure _ _ _ Hlast Hk).
  rewrite app_nil_r. reflexivity.
Qed.

End RetryFacts.

(** Without the bound the loop need not end: with [maxRetries] at
    [2 ^ 53] or above the counter never passes it, and an operation
    that fails every time is called for ever. *)
Lemma retry_never_gives_up {A E : Type} (operation : nat -> settled A E)
    (maxRetries : N) (baseDelay : Timestamp.number) (fuel : nat) :
  (exact_below <= maxRetries)%N ->
  (forall i, exists e, operation i = Failure e) ->
  retryWithExponentialBackoff operation maxRetries baseDelay fuel = None.
Proof.
  intros Hbig Hfail. unfold retryWithExponentialBackoff.
  assert (H : forall calls retries, (retries <= exact_below)%N ->
            retry_loop operation maxRetries baseDelay fuel calls retries = None).
  { induction fuel as [|fuel IH]; intros calls retries Hr; [reflexivity|].
    cbn [retry_loop]. destruct (Hfail calls) as [e ->].
    assert (Hi : (increment retries <= exact_below)%N).
    { unfold increment. destruct (N.ltb_spec retries exact_below); lia. }
    rewrite (proj2 (N.ltb_ge maxRetries (increment retries))) by lia.
    rewrite (IH _ _ Hi). reflexivity. }
  apply H. unfold exact_below. lia.
Qed.

(** X12. For [maxRetries] below [2 ^ 53], where the counter of the
    source counts one by one: when the first [k] calls of the operation
    fail and call [k] succeeds, with [k] at most [maxRetries], the value
    of that call is returned.  Before it exactly [k] delays were waited
    for, the [i]-th of them [baseDelay * Math.pow(2, i)] as binary64
    computes it, [Infinity] included. *)
Theorem retry_returns_first_success {A E : Type}
    (operation : nat -> settled A E) (maxRetries : N)
    (baseDelay : Timestamp.number) (k : nat) (a : A) :
  (maxRetries < exact_below)%N ->
  (forall i, i < k -> exists e, operation i = Failure e) ->
  operation k = Fulfilled a ->
  (N.of_nat k <= maxRetries)%N ->
  exists delays,
    (forall fuel, k < fuel ->
       retryWithExponentialBackoff operation maxRetries baseDelay fuel
         = Some (Fulfilled a, delays)) /\
    length delays = k /\
    (forall i, i < k ->
       delays !! i = Some (PrimFloat.mul baseDelay (pow2 (N.of_nat i)))).
Proof.
  intros Hmax Hfail Hok Hle. exists (backoff baseDelay 0 k).
  split; [|split].
  - intros fuel Hfuel. apply retry_run_fulfilled; assumption.
  - apply backoff_length.
  - intros i Hi. rewrite backoff_lookup by exact Hi. reflexivity.
Qed.

(** X13. For [maxRetries] below [2 ^ 53]: when the operation fails
    [maxRetries + 1] times in a row, the error of its last call is
    thrown, after exactly [maxRetries] delays, the [i]-th of them
    [baseDelay * Math.pow(2, i)] as binary64 computes it. *)
Theorem retry_gives_up_with_last_error {A E : Type}
    (operation : nat -> settled A E) (maxRetries : N)
    (baseDelay : Timestamp.number) (e : E) :
  (maxRetries < exact_below)%N ->
  (forall i, i < N.to_nat maxRetries -> exists e', operation i = Failure e') ->
  operation (N.to_nat maxRetries) = Failure e ->
  exists delays,
    (forall fuel, N.to_nat maxRetries < fuel ->
       retryWithExponentialBackoff operation maxRetries baseDelay fuel
         = Some (Failure e, delays)) /\
    length delays = N.to_nat maxRetries /\
    (forall i, i < N.to_nat maxRetries ->
       delays !! i = Some (PrimFloat.mul baseDelay (pow2 (N.of_nat i)))).
Proof.
  intros Hmax Hfail Hlast. exists (backoff baseDelay 0 (N.to_nat maxRetries)).
  split; [|split].
  - intros fuel Hfuel. apply retry_run_exhausted; try assumption. lia.
  - apply backoff_length.
  - intros i Hi. rewrite backoff_lookup by exact Hi. reflexivity.
Qed.

(** X14. For [maxRetries] below [2 ^ 53], whatever the operation does
    and whatever number [baseDelay] is, the loop ends within
    [maxRetries + 1] iterations: after [k] delays, at most [maxRetries],
    the [i]-th of them [baseDelay * Math.pow(2, i)] as binary64 computes
    it, with every call before the last one failed.  It returns what
    the last call returned, or throws the error of call number
    [maxRetries]; the operation is never called more than
    [maxRetries + 1] times. *)
Theorem retry_always_settles {A E : Type} (operation : nat -> settled A E)
    (maxRetries : N) (baseDelay : Timestamp.number) :
  (maxRetries < exact_below)%N ->
  exists r k,
    (forall fuel, N.to_nat maxRetries < fuel ->
       retryWithExponentialBackoff operation maxRetries baseDelay fuel
         = Some (r, backoff baseDelay 0 k)) /\
    (N.of_nat k <= maxRetries)%N /\
    (forall i, i < k -> exists e, operation i = Failure e) /\
    match r with
    | Fulfilled a => operation k = Fulfilled a
    | Failure e => operation k = Failure e /\ N.of_nat k = maxRetries
    end.
Proof.
  intros Hmax.
  destruct (first_success_or_none operation (N.to_nat maxRetries))
    as [(k & a & Hk & Ha & Hf)|Hall].
  - exists (Fulfilled a), k. split; [|split; [lia|split; assumption]].
    intros fuel Hfuel. apply retry_run_fulfilled; try assumption; lia.
  - destruct (Hall (N.to_nat maxRetries) ltac:(lia)) as [e He].
    exists (Failure e), (N.to_nat maxRetries).
    split; [|split; [lia|split]].
    + intros fuel Hfuel. apply retry_run_exhausted; try assumption; try lia.
      intros i Hi. apply Hall. lia.
    + intros i Hi. apply Hall. lia.
    + split; [exact He|lia].
Qed.

Lemma retry_returns_first_success_witness :
  exists delays,
    (forall fuel, 2 < fuel ->
       retryWithExponentialBackoff flaky 3 (Timestamp.of_N 1000) fuel
         = Some (Fulfilled $"done", delays)) /\
    length delays = 2 /\
    (forall i, i < 2 ->
       delays !! i
         = Some (PrimFloat.mul (Timestamp.of_N 1000) (pow2 (N.of_nat i)))).
Proof.
  apply (retry_returns_first_success flaky 3 (Timestamp.of_N 1000) 2 $"done").
  - reflexivity.
  - intros [|[|i]] Hi; [eexists; reflexivity..|lia].
  - reflexivity.
  - vm_compute. discriminate.
Defined.

Lemma retry_gives_up_with_last_error_witness :
  exists delays,
    (forall fuel, N.to_nat 3 < fuel ->
       retryWithExponentialBackoff broken 3 (Timestamp.of_N 1000) fuel
         = Some (Failure $"timeout 3", delays)) /\
    length delays = N.to_nat 3 /\
    (forall i, i < N.to_nat 3 ->
       delays !! i
         = Some (PrimFloat.mul (Timestamp.of_N 1000) (pow2 (N.of_nat i)))).
Proof.
  apply (retry_gives_up_with_last_error broken 3 (Timestamp.of_N 1000)
           $"timeout 3").
  - reflexivity.
  - intros i _. eexists. reflexivity.
  - reflexivity.
Defined.

Lemma retry_always_settles_witness :
  exists r k,
    (forall fuel, N.to_nat 3 < fuel ->
       retryWithExponentialBackoff flaky 3 (Timestamp.of_N 1000) fuel
         = Some (r, backoff (Timestamp.of_N 1000) 0 k)) /\
    (N.of_nat k <= 3)%N /\
    (forall i, i < k -> exists e, flaky i = Failure e) /\
    match r with
    | Fulfilled a => flaky k = Fulfilled a
    | Failure e => flaky k = Failure e /\ N.of_nat k = 3%N
    end.
Proof.
  apply (retry_always_settles flaky 3 (Timestamp.of_N 1000)).
  reflexivity.
Defined.

(** The delays of the default arguments, and a delay that binary64
    cannot hold. *)
Example default_delays :
  snd <$> retryWithExponentialBackoff broken 3 (Timestamp.of_N 1000) 4
    = Some [Timestamp.of_N 1000; Timestamp.of_N 2000; Timestamp.of_N 4000] /\
  pow2 1024 = PrimFloat.infinity /\
  PrimFloat.mul (Timestamp.of_N (2 ^ 1023)) (pow2 1) = PrimFloat.infinity.
Proof. repeat split; vm_compute; reflexivity. Qed.

(** ** SRT timestamps without a comma *)

Lemma match_atoms_suffix (p : list atom) (s m r : str) (x : char) :
  match_atoms p s = Some (m, r) -> In x r -> In x s.
Proof.
  intros H Hin. apply match_atoms_split in H as [-> _].
  apply in_or_app. right. exact Hin.
Qed.

Lemma match_comma (s m r : str) :
  match_atoms (chars ",") s = Some (m, r) -> In 44%N s.
Proof.
  destruct s as [|c s]; [discriminate|].
  change (match_atoms (chars ",") (c :: s))
    with (if N.eqb 44 c then Some ([c], s) else None).
  destruct (N.eqb_spec 44%N c) as [<-|]; [|discriminate].
  intros _. left. reflexivity.
Qed.

Lemma srt_at_comma (s : str) (m : str * str * str * str) :
  Timestamp.srt_at s = Some m -> In 44%N s.
Proof.
  unfold Timestamp.srt_at.
  destruct (match_atoms [Digit; Digit] s) as [[g1 r1]|] eqn:E1; [|discriminate].
  destruct (match_atoms (chars ":") r1) as [[x1 r2]|] eqn:E2; [|discriminate].
  destruct (match_atoms [Digit; Digit] r2) as [[g2 r3]|] eqn:E3; [|discriminate].
  destruct (match_atoms (chars ":") r3) as [[x2 r4]|] eqn:E4; [|discriminate].
  destruct (match_atoms [Digit; Digit] r4) as [[g3 r5]|] eqn:E5; [|discriminate].
  destruct (match_atoms (chars ",") r5) as [[x3 r6]|] eqn:E6; [|discriminate].
  intros _. apply match_comma in E6.
  apply (match_atoms_suffix _ _ _ _ _ E1), (match_atoms_suffix _ _ _ _ _ E2),
    (match_atoms_suffix _ _ _ _ _ E3), (match_atoms_suffix _ _ _ _ _ E4),
    (match_atoms_suffix _ _ _ _ _ E5), E6.
Qed.

Lemma srt_match_comma (s : str) (m : str * str * str * str) :
  Timestamp.srt_match s = Some m -> In 44%N s.
Proof.
  induction s as [|c s IH]; cbn [Timestamp.srt_match].
  - destruct (Timestamp.srt_at []) eqn:E; [|discriminate].
    intros _. exact (srt_at_comma _ _ E).
  - destruct (Timestamp.srt_at (c :: s)) eqn:E.
    + intros _. exact (srt_at_comma _ _ E).
    + intros H. right. exact (IH H).
Qed.

(** X15. [parseSrtTimestamp] reads every string without a comma as zero
    seconds, and so every timestamp of the VTT syntax, which writes the
    milliseconds behind a dot: no error is raised for it. *)
Theorem timestamp_without_comma_is_zero (t : str) :
  ~ In 44%N t \/ is_vtt_timestamp t = true ->
  Timestamp.parseSrtTimestamp t = Timestamp.of_N 0.
Proof.
  intros Ht. unfold Timestamp.parseSrtTimestamp.
  destruct (Timestamp.srt_match t) as [m|] eqn:E; [|reflexivity].
  exfalso. apply srt_match_comma in E. revert E.
  destruct Ht as [Ht|Ht]; [exact Ht|].
  unfold is_vtt_timestamp in Ht. apply orb_true_iff in Ht as [H|H];
    apply (full_match_avoids _ _ _ H); repeat constructor.
Qed.

Lemma timestamp_without_comma_is_zero_witness :
  Timestamp.parseSrtTimestamp $"00:00:01.500" = Timestamp.of_N 0.
Proof.
  apply (timestamp_without_comma_is_zero $"00:00:01.500").
  right. vm_compute. reflexivity.
Defined.

(** ** The debug endpoint *)

Lemma trimStart_app_space (s : str) (c : char) :
  is_space c = true ->
  trimStart (s ++ [c]) =
  match trimStart s with [] => [] | _ :: _ => trimStart s ++ [c] end.
Proof.
  intros Hc. induction s as [|x s IH]; simpl.
  - rewrite Hc. reflexivity.
  - destruct (is_space x); [exact IH|reflexivity].
Qed.

Lemma trimEnd_app_space (s : str) (c : char) :
  is_space c = true -> trimEnd (s ++ [c]) = trimEnd s.
Proof.
  intros Hc. unfold trimEnd. rewrite rev_app_distr. simpl. rewrite Hc.
  reflexivity.
Qed.

Lemma trim_app_space (s : str) (c : char) :
  is_space c = true -> trim (s ++ [c]) = trim s.
Proof.
  intros Hc. unfold trim. rewrite (trimStart_app_space _ _ Hc).
  destruct (trimStart s) as [|x u]; [reflexivity|].
  apply trimEnd_app_space. exact Hc.
Qed.

Lemma text_lines_truthy (t : str) :
  forallb text_line (split [nl] t) = true -> truthy t = true.
Proof. destruct t; [discriminate|reflexivity]. Qed.

Lemma split_text_document (t : str) :
  split [nl] (text_document t)
  = [$"WEBVTT"; []; decimal 1; $"00:00:01.000 --> 00:00:10.000"]
    ++ split [nl] t.
Proof.
  unfold text_document.
  change ($"WEBVTT" ++ [nl; nl] ++ $"1" ++ [nl]
          ++ $"00:00:01.000 --> 00:00:10.000" ++ [nl] ++ t)
    with ($"WEBVTT" ++ nl :: ([] ++ nl :: ($"1" ++ nl
          :: ($"00:00:01.000 --> 00:00:10.000" ++ nl :: t)))).
  rewrite !split_nl_app. reflexivity.
Qed.

(** What the handler takes out of a document of one cue. *)
Lemma text_document_extract (t : str) :
  join [nl] (drop 4 (split [nl] (text_document t))) = t.
Proof. rewrite split_text_document. cbn [app drop]. apply join_split_nl. Qed.

Lemma text_document_encoded (t : str) :
  convertCuesToVTT [text_cue t] = text_document (t ++ [nl; nl]).
Proof.
  rewrite convertCuesToVTT_body. unfold text_document.
  cbn [body]. rewrite app_nil_r. reflexivity.
Qed.

Lemma text_document_cues (parseSRT : str -> result (list cue)) (t : str) :
  forallb text_line (split [nl] t) = true ->
  parseSubtitleContent parseSRT (text_document t)
    (detect_format (text_document t)) = [text_cue t].
Proof.
  intros Ht. unfold text_document at 2. rewrite header_detected.
  unfold parseSubtitleContent. rewrite split_text_document. cbn [app].
  rewrite parse_header_line, parse_blank_line, parse_index_line.
  rewrite (parse_timing_line $"00:00:01.000" $"00:00:10.000" _ _ _
             eq_refl eq_refl).
  pose proof (parse_text_lines (split [nl] t) []
                {| start := $"00:00:01.000"; end_ := $"00:00:10.000";
                   text := [] |}
                (push None [])) as E.
  rewrite app_nil_r in E. rewrite E.
  - cbn [text]. rewrite (text_lines_join _ Ht). reflexivity.
  - apply List.Forall_forall. rewrite forallb_forall in Ht. exact Ht.
Qed.

Section DebugRouteFacts.

Variable parseSRT : str -> result (list cue).
Variable md5 : str -> str.

(** X16. The debug endpoint, asked for a text whose lines the parser
    takes as text and that is not cached, always answers with status
    200.  When the model answers, the translated text is the trimmed
    segment that the one-cue batch resolves to; when the request to the
    model fails, it is the trimmed text of the request itself, reported
    as the translation. *)
Theorem translate_text_reply (net : network) (text : str)
    (from to : option str) (w : world) :
  let fromLang := or_default from $"en" in
  let toLang := or_default to $"el" in
  forallb text_line (split [nl] text) = true ->
  lookup_hit (cacheKey_of md5 (text_document text) fromLang toLang) w = None ->
  exists translated w',
    translate_text parseSRT md5 net
      {| req_text := Some text; req_from := from; req_to := to |} w
      = (Ok (Translation text fromLang translated toLang), w') /\
    match batch_answer net fromLang toLang [text_cue text] 0 with
    | Ok t => exists segment,
                reconcile [text_cue text] t = [segment] /\
                translated = trim segment
    | Thrown => translated = trim text
    end.
Proof.
  intros fromLang toLang Ht Hit.
  pose proof (text_document_cues parseSRT text Ht) as Hcues.
  unfold translate_text. cbn [req_text req_from req_to].
  rewrite (text_lines_truthy _ Ht). cbn [negb]. fold fromLang toLang.
  unfold try_catch, bind.
  destruct (translate_ending parseSRT md5 net (text_document text)
              fromLang toLang w) as (s & w' & Hrun & Hend).
  rewrite Hrun. unfold ret.
  eexists _, w'. split; [reflexivity|].
  destruct Hend as [cached Hc|_ Hno|_ _ Hthrown|tbs _ _ Hans].
  - congruence.
  - rewrite Hcues in Hno. discriminate.
  - rewrite Hcues in Hthrown.
    change (make_batches [text_cue text]) with [[text_cue text]] in Hthrown.
    unfold answers in Hthrown. cbn [map_indexed collect] in Hthrown.
    unfold batch_result in Hthrown.
    destruct (batch_answer net fromLang toLang [text_cue text] 0) as [t|];
      [discriminate|].
    rewrite text_document_extract. reflexivity.
  - rewrite Hcues in Hans |- *.
    change (make_batches [text_cue text]) with [[text_cue text]] in Hans.
    unfold answers in Hans. cbn [map_indexed collect] in Hans.
    unfold batch_result in Hans.
    destruct (batch_answer net fromLang toLang [text_cue text] 0) as [t|];
      [|discriminate].
    injection Hans as <-.
    pose proof (reconcile_length [text_cue text] t) as Hlen.
    destruct (reconcile [text_cue text] t) as [|segment [|? ?]];
      try discriminate Hlen.
    exists segment. split; [reflexivity|].
    change (apply_batches [text_cue text] [[segment]])
      with [text_cue (trim segment)].
    rewrite text_document_encoded, text_document_extract.
    change (trim segment ++ [nl; nl]) with (trim segment ++ [nl] ++ [nl]).
    rewrite app_assoc, !trim_app_space by reflexivity.
    apply trim_idemp.
Qed.

End DebugRouteFacts.

Lemma translate_text_reply_witness :
  exists translated w',
    translate_text no_srt digest (says $" Hola ")
      {| req_text := Some $"Hello"; req_from := None; req_to := Some $"es" |} w0
      = (Ok (Translation $"Hello" $"en" translated $"es"), w') /\
    match batch_answer (says $" Hola ") $"en" $"es" [text_cue $"Hello"] 0 with
    | Ok t => exists segment,
                reconcile [text_cue $"Hello"] t = [segment] /\
                translated = trim segment
    | Thrown => translated = trim $"Hello"
    end.
Proof.
  apply (translate_text_reply no_srt digest (says $" Hola ") $"Hello"
           None (Some $"es") w0).
  - vm_compute. reflexivity.
  - vm_compute. reflexivity.
Defined.

(** ** The subtitle route *)

Lemma split_go_underscore (a tail cur : str) :
  ~ In 95%N a ->
  tail = [] \/ (exists t, tail = 95%N :: t) ->
  exists more, split_go $"_" (a ++ tail) O cur = (rev cur ++ a) :: more.
Proof.
  revert cur. induction a as [|c a IH]; intros cur Ha Ht.
  - destruct Ht as [->|[t ->]].
    + exists []. simpl. rewrite app_nil_r. reflexivity.
    + eexists. cbn [app]. rewrite app_nil_r. reflexivity.
  - cbn [app].
    change (split_go $"_" (c :: a ++ tail) 0 cur)
      with (if N.eqb 95 c && true
            then rev cur :: split_go $"_" (a ++ tail) O []
            else split_go $"_" (a ++ tail) O (c :: cur)).
    destruct (N.eqb_spec 95%N c) as [E|_].
    + exfalso. apply Ha. left. symmetry. exact E.
    + cbn [andb]. destruct (IH (c :: cur)) as [more ->]; [|exact Ht|].
      * intros Hin. apply Ha. right. exact Hin.
      * exists more. simpl. rewrite <- app_assoc. reflexivity.
Qed.

Lemma split_translate_request (lang tail : str) :
  ~ In 95%N lang ->
  tail = [] \/ (exists t, tail = 95%N :: t) ->
  exists more,
    split $"_" ($"translate_" ++ lang ++ tail) = $"translate" :: lang :: more.
Proof.
  intros Hl Ht.
  destruct (split_go_underscore lang tail [] Hl Ht) as [more E].
  exists more.
  change (split $"_" ($"translate_" ++ lang ++ tail))
    with ($"translate" :: split_go $"_" (lang ++ tail) O []).
  rewrite E. reflexivity.
Qed.

Section SubtitleRouteFacts.

Variable parseSRT : str -> result (list cue).
Variable md5 : str -> str.
Variable regular : str -> str -> M route_reply.

(** X17. A request for [translate_] followed by a language is answered
    with status 200 and the content type [text/vtt], never with 400 or
    500, once the stand-in document was read: the body is what
    [translateSubtitle] returns for the stand-in document, from English
    to the language, which is the text between the first underscore and
    the second or the end of the identifier. *)
Theorem translation_request_is_answered (net : network)
    (content mediaId lang tail : str) (w : world) :
  ~ In 95%N lang ->
  tail = [] \/ (exists t, tail = 95%N :: t) ->
  exists s w',
    translateSubtitle parseSRT md5 net content $"en" lang w = (Ok s, w') /\
    subtitle_route parseSRT md5 (Ok content) regular net mediaId
      ($"translate_" ++ lang ++ tail) w
      = (Ok (Sent $"text/vtt" s), w').
Proof.
  intros Hl Ht.
  destruct (translate_ending parseSRT md5 net content $"en" lang w)
    as (s & w' & Hrun & _).
  exists s, w'. split; [exact Hrun|].
  destruct (split_translate_request lang tail Hl Ht) as [more E].
  unfold subtitle_route, try_catch, bind, lift, ret.
  change (startsWith $"translate_" ($"translate_" ++ lang ++ tail)) with true.
  cbv iota. rewrite E. cbn [length Nat.ltb Nat.leb nth]. rewrite Hrun.
  reflexivity.
Qed.

End SubtitleRouteFacts.

Lemma translation_request_is_answered_witness :
  exists s w',
    translateSubtitle no_srt digest (says $"Hola") hello_vtt $"en" $"pt" w0
      = (Ok s, w') /\
    subtitle_route no_srt digest (Ok hello_vtt) (fun _ _ => ret (Status 404))
      (says $"Hola") $"tt0111161" ($"translate_" ++ $"pt" ++ $"_BR") w0
      = (Ok (Sent $"text/vtt" s), w').
Proof.
  apply (translation_request_is_answered no_srt digest
           (fun _ _ => ret (Status 404)) (says $"Hola") hello_vtt
           $"tt0111161" $"pt" $"_BR" w0).
  - vm_compute. intuition discriminate.
  - right. eexists. reflexivity.
Defined.


(** ** The key check *)

(** A call for a document that is not empty returns a string that is
    not empty. *)
Lemma translate_truthy (parseSRT : str -> result (list cue)) (md5 : str -> str)
    (net : network) (content src tgt : str) (w : world) :
  truthy content = true ->
  exists s w',
    translateSubtitle parseSRT md5 net content src tgt w = (Ok s, w') /\
    truthy s = true.
Proof.
  intros Hc.
  destruct (translate_ending parseSRT md5 net content src tgt w)
    as (s & w' & Hrun & Hend).
  exists s, w'. split; [exact Hrun|].
  destruct Hend as [cached Hit|_ _|_ _ _|tbs _ _ _]; try exact Hc.
  - unfold lookup_hit in Hit.
    destruct (store_get (now w) (cacheKey_of md5 content src tgt) (cache w))
      as [v|]; [|discriminate].
    destruct (truthy v) eqn:Ev; [|discriminate].
    injection Hit as <-. exact Ev.
  - apply convertCuesToVTT_truthy.
Qed.

(** X18. Once the key is set in the environment the check reports it as
    valid and working, whatever the model does with the request and
    whatever the cache holds: a failed translation returns the test
    document, which is not empty, so neither the empty-result nor the
    error answer is ever given. *)
Theorem key_check_always_passes (parseSRT : str -> result (list cue))
    (md5 : str -> str) (key : str) (net : network) (w : world) :
  truthy key = true ->
  exists w',
    check_gemini_key parseSRT md5 (Some key) net w = (Ok KeyWorking, w').
Proof.
  intros Hkey.
  destruct (translate_truthy parseSRT md5 net test_document $"en" $"el" w
              eq_refl) as (s & w' & Hrun & Hs).
  exists w'.
  unfold check_gemini_key, try_catch, bind. rewrite Hkey, Hrun, Hs.
  destruct s as [|c s]; [discriminate|]. reflexivity.
Qed.

Lemma key_check_always_passes_witness :
  exists w',
    check_gemini_key no_srt digest (Some $"not-a-key") down w0
      = (Ok KeyWorking, w').
Proof.
  apply (key_check_always_passes no_srt digest $"not-a-key" down w0).
  reflexivity.
Defined.
